(** * Spectral resampling and colour conversion (spectrum.hpp)

    A shallow embedding of [SampledSpectrum] from
    [src/spectral/source/spectrum.hpp]: the resampler ([averageSamples],
    [fromSamples]), the lazily built colour-matching singletons
    ([X], [Y], [Z], [yIntegral]) and the converters ([toXYZ], [toRGB]).

    The code is written once, over an interface [Arith] of the arithmetic a
    C++ [float] offers.  The instance that is the machine is [binary32]:
    IEEE 754 single precision, round to nearest even, through the
    [SpecFloat] operations of the standard library at precision 24 and
    maximal exponent 128 (without contraction of multiply-add, without
    extended intermediate precision).  The statements are made for
    [binary32], or for every arithmetic that has the laws of [binary32] they
    name.  A second instance, [exact], reads the code over the rationals
    [Q]: no rounding, no overflow, no NaN, and a division by zero that
    gives 0.  It is not the machine; it says which number a float
    expression is the rounding of.

    Indices and counts are [uint32_t]: numbers in [N] with the wrap-around at
    2^32 written out.  Reads of a C array are reads of a list and fail outside
    it; a failed [assert] fails as well.  The function-local statics are a
    state that [X], [Y], [Z] and [yIntegral] read and initialise. *)
From Stdlib Require Import List Bool NArith ZArith QArith Qminmax Lia Lqa.
From Stdlib Require Import Floats.SpecFloat.
Import ListNotations.

(** ** Outcome of a run *)

Module Exec.

(** [Fault]: a read outside an array (undefined behaviour) or a failed
    [assert] (the model is the build with assertions on).  [OutOfFuel]: the
    loop bound given to the model was too small; the functions pass bounds
    that are shown to suffice. *)
Inductive exec (A : Type) : Type :=
| Done (a : A)
| Fault
| OutOfFuel.

Arguments Done {A} a.
Arguments Fault {A}.
Arguments OutOfFuel {A}.

Definition bind {A B : Type} (m : exec A) (k : A -> exec B) : exec B :=
  match m with
  | Done a => k a
  | Fault => Fault
  | OutOfFuel => OutOfFuel
  end.

Definition assert (b : bool) : exec unit := if b then Done tt else Fault.

End Exec.
Export Exec.

Declare Scope exec_scope.
Delimit Scope exec_scope with exec.
Notation "x <- m ;; k" := (bind m (fun x => k))
  (at level 61, m at next level, right associativity) : exec_scope.
Notation "m ;;; k" := (bind m (fun _ => k))
  (at level 61, right associativity) : exec_scope.
Open Scope exec_scope.

(** ** uint32_t *)

Module U32.

Definition modulus : N := 4294967296.
Definition wrap (n : N) : N := (n mod modulus)%N.
Definition add (a b : N) : N := wrap (a + b).
Definition sub (a b : N) : N := wrap (a + modulus - b).

End U32.

(** ** The arithmetic of [float] *)

Class Arith (F : Type) : Type := {
  fadd : F -> F -> F;
  fsub : F -> F -> F;
  fmul : F -> F -> F;
  fdiv : F -> F -> F;
  fopp : F -> F;
  fltb : F -> F -> bool;
  fleb : F -> F -> bool;
  (** conversion of an integer, as in [float(i)] *)
  of_Z : Z -> F
}.

Declare Scope float_scope.
Delimit Scope float_scope with fl.
Infix "+" := fadd : float_scope.
Infix "-" := fsub : float_scope.
Infix "*" := fmul : float_scope.
Infix "/" := fdiv : float_scope.
Notation "- x" := (fopp x) : float_scope.
Infix "<?" := fltb : float_scope.
Infix "<=?" := fleb : float_scope.
Notation "x >? y" := (fltb y x) (only parsing) : float_scope.
Notation "x >=? y" := (fleb y x) (only parsing) : float_scope.

(** IEEE 754 binary32. *)
Module Binary32.

Definition prec : Z := 24.
Definition emax : Z := 128.

Definition of_Z (z : Z) : spec_float := binary_normalize prec emax z 0 false.

End Binary32.

#[export] Instance binary32 : Arith spec_float := {
  fadd := SFadd Binary32.prec Binary32.emax;
  fsub := SFsub Binary32.prec Binary32.emax;
  fmul := SFmul Binary32.prec Binary32.emax;
  fdiv := SFdiv Binary32.prec Binary32.emax;
  fopp := SFopp;
  fltb := SFltb;
  fleb := SFleb;
  of_Z := Binary32.of_Z
}.

(** Exact arithmetic. *)
Definition Qltb (a b : Q) : bool := negb (Qle_bool b a).

#[export] Instance exact : Arith Q := {
  fadd := Qplus;
  fsub := Qminus;
  fmul := Qmult;
  fdiv := Qdiv;
  fopp := Qopp;
  fltb := Qltb;
  fleb := Qle_bool;
  of_Z := inject_Z
}.

(** ** The program *)

Section Program.

Context {F : Type} {AF : Arith F}.

Local Open Scope float_scope.

Definition of_uint32 (n : N) : F := of_Z (Z.of_N n).

(** A decimal literal [n/d]: with [n] and [d] below 2^24 both conversions are
    exact in binary32 and the division is correctly rounded, which is the
    value the compiler gives the literal. *)
Definition lit (n d : Z) : F := of_Z n / of_Z d.

Definition f0 : F := of_Z 0.     (* 0.0f *)
Definition f1 : F := of_Z 1.     (* 1.0f *)
Definition fhalf : F := lit 1 2. (* 0.5f *)

(** [std::max(a, b)] is [(a < b) ? b : a]; [std::min(a, b)] is
    [(b < a) ? b : a]. *)
Definition fmax (a b : F) : F := if a <? b then b else a.
Definition fmin (a b : F) : F := if b <? a then b else a.

(** [a[i]] on a C array. *)
Definition read (a : list F) (i : N) : exec F :=
  match nth_error a (N.to_nat i) with
  | Some x => Done x
  | None => Fault
  end.

(** *** averageSamples *)

(** [while (lBegin > wavelengths[i + 1]) ++i;] *)
Fixpoint advance (fuel : nat) (wavelengths : list F) (lBegin : F) (i : N)
  : exec N :=
  w1 <- read wavelengths (U32.add i 1) ;;
  if lBegin >? w1 then
    match fuel with
    | O => OutOfFuel
    | S fuel' => advance fuel' wavelengths lBegin (U32.add i 1)
    end
  else Done i.

(** The lambda [interpolate]. *)
Definition interpolate (wavelengths values : list F) (l : F) (i : N) : exec F :=
  wi <- read wavelengths i ;;
  wi1 <- read wavelengths (U32.add i 1) ;;
  let t := (l - wi) / (wi1 - wi) in
  vi <- read values i ;;
  vi1 <- read values (U32.add i 1) ;;
  Done (vi * (f1 - t) + vi1 * t).

(** [for (; (i + 1 < count) && (lEnd >= wavelengths[i]); ++i) { ... }] *)
Fixpoint segments (fuel : nat) (wavelengths values : list F) (count : N)
    (lBegin lEnd : F) (i : N) (result : F) : exec F :=
  if (U32.add i 1 <? count)%N then
    wi <- read wavelengths i ;;
    if lEnd >=? wi then
      wi' <- read wavelengths i ;;
      let l0 := fmax lBegin wi' in
      wi1 <- read wavelengths (U32.add i 1) ;;
      let l1 := fmin lEnd wi1 in
      a <- interpolate wavelengths values l0 i ;;
      b <- interpolate wavelengths values l1 i ;;
      let result := result + fhalf * (a + b) * (l1 - l0) in
      match fuel with
      | O => OutOfFuel
      | S fuel' =>
          segments fuel' wavelengths values count lBegin lEnd (U32.add i 1)
            result
      end
    else Done result
  else Done result.

Definition averageSamples (wavelengths values : list F) (count : N)
    (lBegin lEnd : F) : exec F :=
  assert (0 <? count)%N ;;;
  if (count =? 1)%N then read values 0 else
  w0 <- read wavelengths 0 ;;
  if lEnd <=? w0 then read values 0 else
  wl <- read wavelengths (U32.sub count 1) ;;
  if lBegin >=? wl then read values (U32.sub count 1) else
  let result := f0 in
  w0' <- read wavelengths 0 ;;
  let result := if lBegin <? w0' then result + f0 else result in
  wl' <- read wavelengths (U32.sub count 1) ;;
  let result := if lEnd >? wl' then result + f0 else result in
  i <- advance (N.to_nat count) wavelengths lBegin 0 ;;
  result <- segments (N.to_nat count) wavelengths values count lBegin lEnd i
              result ;;
  Done (result * (f1 / (lEnd - lBegin))).

(** *** The sample container *)

Definition SampleCount : N := 60.
Definition WavelengthBegin : N := 400.
Definition WavelengthEnd : N := 700.

(** [float samples[sampleCount]] *)
Definition SampledSpectrum : Type := list F.

(** [explicit SampledSpectrumBase(float val = 0.0f)] *)
Definition make (val : F) : SampledSpectrum :=
  repeat val (N.to_nat SampleCount).

Fixpoint update (l : list F) (n : nat) (x : F) : list F :=
  match l, n with
  | [], _ => []
  | _ :: t, O => x :: t
  | h :: t, S n' => h :: update t n' x
  end.

(** [operator []], read and write. *)
Definition get (s : SampledSpectrum) (i : N) : exec F :=
  assert (i <? SampleCount)%N ;;; read s i.

Definition set (s : SampledSpectrum) (i : N) (x : F) : exec SampledSpectrum :=
  assert (i <? SampleCount)%N ;;;
  _ <- read s i ;;
  Done (update s (N.to_nat i) x).

(** *** fromSamples *)

(** [for (uint32_t i = 0; i + 1 < count; ++i)
       assert(wavelengths[i] < wavelengths[i + 1]);] *)
Fixpoint check_increasing (fuel : nat) (wavelengths : list F) (count : N)
    (i : N) : exec unit :=
  if (U32.add i 1 <? count)%N then
    wi <- read wavelengths i ;;
    wi1 <- read wavelengths (U32.add i 1) ;;
    assert (wi <? wi1) ;;;
    match fuel with
    | O => OutOfFuel
    | S fuel' => check_increasing fuel' wavelengths count (U32.add i 1)
    end
  else Done tt.

(** The bounds of bin [i], as the loop body computes them. *)
Definition bin_begin (i : N) : F :=
  let t0 := of_uint32 i / of_uint32 SampleCount in
  of_uint32 WavelengthBegin * (f1 - t0) + of_uint32 WavelengthEnd * t0.

Definition bin_end (i : N) : F :=
  let t1 := of_uint32 (U32.add i 1) / of_uint32 SampleCount in
  of_uint32 WavelengthBegin * (f1 - t1) + of_uint32 WavelengthEnd * t1.

(** [for (uint32_t i = 0; i < SampleCount; ++i) { ... }] *)
Fixpoint fill (fuel : nat) (wavelengths values : list F) (count : N)
    (i : N) (result : SampledSpectrum) : exec SampledSpectrum :=
  if (i <? SampleCount)%N then
    let l0 := bin_begin i in
    let l1 := bin_end i in
    a <- averageSamples wavelengths values count l0 l1 ;;
    result <- set result i a ;;
    match fuel with
    | O => OutOfFuel
    | S fuel' => fill fuel' wavelengths values count (U32.add i 1) result
    end
  else Done result.

Definition fromSamples (wavelengths values : list F) (count : N)
  : exec SampledSpectrum :=
  check_increasing (N.to_nat count) wavelengths count 0 ;;;
  let result := make f0 in
  fill (N.to_nat SampleCount) wavelengths values count 0 result.

End Program.

(** ** The CIE table

    [CIE::wavelengths], [CIE::x], [CIE::y] and [CIE::z] are declared
    [extern] in the header and defined elsewhere: the development takes them
    as a parameter. *)
Module CIE.

Definition sampleCount : N := 471.

Record tables (F : Type) : Type := {
  wavelengths : list F;
  x : list F;
  y : list F;
  z : list F
}.

Arguments wavelengths {F} _.
Arguments x {F} _.
Arguments y {F} _.
Arguments z {F} _.

End CIE.

(** ** Function-local statics *)

Module Statics.

(** The four [static] locals of [X], [Y], [Z] and [yIntegral]; [None] until
    the first call initialises them. *)
Record statics (F : Type) : Type := {
  x : option (list F);
  y : option (list F);
  z : option (list F);
  value : option F
}.

Arguments x {F} _.
Arguments y {F} _.
Arguments z {F} _.
Arguments value {F} _.

Definition initial {F : Type} : statics F :=
  {| x := None; y := None; z := None; value := None |}.

Definition with_x {F} (st : statics F) (s : list F) : statics F :=
  {| x := Some s; y := y st; z := z st; value := value st |}.
Definition with_y {F} (st : statics F) (s : list F) : statics F :=
  {| x := x st; y := Some s; z := z st; value := value st |}.
Definition with_z {F} (st : statics F) (s : list F) : statics F :=
  {| x := x st; y := y st; z := Some s; value := value st |}.
Definition with_value {F} (st : statics F) (v : F) : statics F :=
  {| x := x st; y := y st; z := z st; value := Some v |}.

End Statics.

(** Computations that may initialise a static. *)
Definition M (F A : Type) : Type :=
  Statics.statics F -> exec (A * Statics.statics F).

Definition retM {F A : Type} (a : A) : M F A := fun st => Done (a, st).

Definition bindM {F A B : Type} (m : M F A) (k : A -> M F B) : M F B :=
  fun st =>
    match m st with
    | Done (a, st') => k a st'
    | Fault => Fault
    | OutOfFuel => OutOfFuel
    end.

Definition liftM {F A : Type} (m : exec A) : M F A :=
  fun st => r <- m ;; Done (r, st).

Declare Scope static_scope.
Delimit Scope static_scope with static.
Notation "x <~ m ;; k" := (bindM m (fun x => k))
  (at level 61, m at next level, right associativity) : static_scope.

Record Float3 (F : Type) : Type := mkFloat3 { a : F; b : F; c : F }.
Arguments mkFloat3 {F} a b c.
Arguments a {F} _.
Arguments b {F} _.
Arguments c {F} _.

Section Colour.

Context {F : Type} {AF : Arith F}.
Variable cie : CIE.tables F.

Local Open Scope float_scope.
Local Open Scope static_scope.

(** [static SampledSpectrum x = SampledSpectrum::fromSamples(...)] *)
Definition X : M F (SampledSpectrum (F := F)) := fun st =>
  match Statics.x st with
  | Some s => Done (s, st)
  | None =>
      s <- fromSamples (CIE.wavelengths cie) (CIE.x cie) CIE.sampleCount ;;
      Done (s, Statics.with_x st s)
  end.

Definition Y : M F (SampledSpectrum (F := F)) := fun st =>
  match Statics.y st with
  | Some s => Done (s, st)
  | None =>
      s <- fromSamples (CIE.wavelengths cie) (CIE.y cie) CIE.sampleCount ;;
      Done (s, Statics.with_y st s)
  end.

Definition Z : M F (SampledSpectrum (F := F)) := fun st =>
  match Statics.z st with
  | Some s => Done (s, st)
  | None =>
      s <- fromSamples (CIE.wavelengths cie) (CIE.z cie) CIE.sampleCount ;;
      Done (s, Statics.with_z st s)
  end.

(** The lambda [acquireIntegral]:
    [for (uint32_t i = 0; i < CIE::sampleCount; ++i) result += CIE::y[i];] *)
Fixpoint acquire_loop (fuel : nat) (i : N) (result : F) : exec F :=
  if (i <? CIE.sampleCount)%N then
    yi <- read (CIE.y cie) i ;;
    let result := result + yi in
    match fuel with
    | O => OutOfFuel
    | S fuel' => acquire_loop fuel' (U32.add i 1) result
    end
  else Done result.

Definition acquireIntegral : exec F :=
  acquire_loop (N.to_nat CIE.sampleCount) 0 f0.

(** [static const float value = acquireIntegral(); return value;] *)
Definition yIntegral : M F F := fun st =>
  match Statics.value st with
  | Some v => Done (v, st)
  | None =>
      v <- acquireIntegral ;;
      Done (v, Statics.with_value st v)
  end.

(** The loop of [toXYZ]; [sX.samples[i]] is a plain array read. *)
Fixpoint accumulate (fuel : nat) (sX sY sZ samples : list F) (i : N)
    (xyz : F * F * F) : exec (F * F * F) :=
  if (i <? SampleCount)%N then
    let '(x, y, z) := xyz in
    xi <- read sX i ;;
    si <- read samples i ;;
    let x := x + xi * si in
    yi <- read sY i ;;
    si <- read samples i ;;
    let y := y + yi * si in
    zi <- read sZ i ;;
    si <- read samples i ;;
    let z := z + zi * si in
    match fuel with
    | O => OutOfFuel
    | S fuel' => accumulate fuel' sX sY sZ samples (U32.add i 1) (x, y, z)
    end
  else Done xyz.

Definition toXYZ (samples : SampledSpectrum (F := F)) : M F (Float3 F) :=
  sX <~ X ;;
  sY <~ Y ;;
  sZ <~ Z ;;
  xyz <~ liftM (accumulate (N.to_nat SampleCount) sX sY sZ samples 0
                  (f0, f0, f0)) ;;
  let '(x, y, z) := xyz in
  yint <~ yIntegral ;;
  let scale :=
    (of_uint32 WavelengthEnd - of_uint32 WavelengthBegin)
    / (of_uint32 SampleCount * yint) in
  retM (mkFloat3 (x * scale) (y * scale) (z * scale)).

Definition toRGB (samples : SampledSpectrum (F := F)) : M F (Float3 F) :=
  xyz <~ toXYZ samples ;;
  let r := lit 3240479 1000000 * a xyz - lit 1537150 1000000 * b xyz
           - lit 498535 1000000 * c xyz in
  let g := - lit 969256 1000000 * a xyz + lit 1875991 1000000 * b xyz
           + lit 41556 1000000 * c xyz in
  let b' := lit 55648 1000000 * a xyz - lit 204043 1000000 * b xyz
            + lit 1057311 1000000 * c xyz in
  retM (mkFloat3 r g b').

End Colour.

(** * Vocabulary of the statements *)

(** ** Preconditions *)

(** Strictly increasing, as the assertions of [fromSamples] test it. *)
Fixpoint increasingb {F : Type} {AF : Arith F} (l : list F) : bool :=
  match l with
  | x :: (y :: _) as t => (x <? y)%fl && increasingb t
  | _ => true
  end.

(** The one order law the control flow of [averageSamples] relies on. *)
Definition lt_le_law {F : Type} {AF : Arith F} : Prop :=
  forall x y : F, (x <? y)%fl = true -> (x <=? y)%fl = true.

(** The order laws shared by the two arithmetics. *)
Class OrderLaws (F : Type) {AF : Arith F} : Prop := {
  lt_le : forall x y : F, (x <? y)%fl = true -> (x <=? y)%fl = true;
  lt_trans :
    forall x y z : F,
      (x <? y)%fl = true -> (y <? z)%fl = true -> (x <? z)%fl = true;
  le_lt_trans :
    forall x y z : F,
      (x <=? y)%fl = true -> (y <? z)%fl = true -> (x <? z)%fl = true;
  lt_not_ge : forall x y : F, (x <? y)%fl = true -> (y <=? x)%fl = false
}.

(** [SFcompare] orders the floats that are not NaN as the lexicographic
    order on a key: the class of the float, then exponent and mantissa
    (negated for negative floats). *)
Module Binary32Order.

Definition key (x : spec_float) : option (BinNums.Z * BinNums.Z * BinNums.Z) :=
  match x with
  | S754_nan => None
  | S754_infinity true => Some (-2, 0, 0)%Z
  | S754_infinity false => Some (2, 0, 0)%Z
  | S754_zero _ => Some (0, 0, 0)%Z
  | S754_finite false m e => Some (1, e, Zpos m)%Z
  | S754_finite true m e => Some (-1, - e, Zneg m)%Z
  end.

Definition lex (p q : BinNums.Z * BinNums.Z * BinNums.Z) : comparison :=
  let '(p1, p2, p3) := p in
  let '(q1, q2, q3) := q in
  match (p1 ?= q1)%Z with
  | Eq => match (p2 ?= q2)%Z with
          | Eq => (p3 ?= q3)%Z
          | c => c
          end
  | c => c
  end.

End Binary32Order.

(** ** The bins, in the words of the specification *)

(** [lerp(t) = WavelengthBegin*(1-t) + WavelengthEnd*t]. *)
Definition lerp {F : Type} {AF : Arith F} (t : F) : F :=
  (of_uint32 WavelengthBegin * (f1 - t) + of_uint32 WavelengthEnd * t)%fl.

(** ** The piecewise-linear interpolant and its integral, in the words of
    the specification (exact arithmetic) *)

(** Segment [k] runs from knot [k] to knot [k+1]; on it the input is
    [v[k] + (v[k+1] - v[k]) * (l - w[k]) / (w[k+1] - w[k])]. *)
Definition line (w v : list Q) (k : nat) (l : Q) : Q :=
  (nth k v 0
   + (nth (S k) v 0 - nth k v 0) * (l - nth k w 0)
     / (nth (S k) w 0 - nth k w 0))%Q.

(** An antiderivative of [line w v k]: the polynomial whose difference over
    [[p, q]] is the area under the line (see [primitive_difference]). *)
Definition primitive (w v : list Q) (k : nat) (l : Q) : Q :=
  (nth k v 0 * l
   + (nth (S k) v 0 - nth k v 0) / (nth (S k) w 0 - nth k w 0)
     * ((l - nth k w 0) * (l - nth k w 0)) / 2)%Q.

(** The integral over the part of [[a, b]] that lies in segment [k]. *)
Definition segment_integral (w v : list Q) (k : nat) (a b : Q) : Q :=
  let p := Qmax a (nth k w 0) in
  let q := Qmin b (nth (S k) w 0) in
  if Qltb p q then (primitive w v k q - primitive w v k p)%Q else 0%Q.

(** [x] brought into [[lo, hi]]. *)
Definition clamp (lo hi x : Q) : Q := Qmax lo (Qmin x hi).

Definition Qsum (l : list Q) : Q := fold_right Qplus 0%Q l.

(** The integral of the interpolant over [[a, b]]: segment by segment. *)
Definition integral (w v : list Q) (a b : Q) : Q :=
  Qsum (map (fun k => segment_integral w v k a b) (seq 0 (length w - 1))).

(** What [interpolate] computes at segment [k], in exact arithmetic. *)
Definition interpolated (w v : list Q) (k : nat) (l : Q) : Q :=
  let t := ((l - nth k w 0) / (nth (S k) w 0 - nth k w 0))%Q in
  (nth k v 0 * (1 - t) + nth (S k) v 0 * t)%Q.

(** ** Colour conversion *)

(** [sum_i s[i] * m[i]] over the bins from [from] on. *)
Definition weighted (s m : list Q) (from : nat) : Q :=
  Qsum (map (fun k => (nth k s 0 * nth k m 0)%Q) (seq from (60 - from))).

(** The normalisation of [toXYZ]:
    [(WavelengthEnd - WavelengthBegin) / (N * YIntegral)]. *)
Definition scale (cie : CIE.tables Q) : Q :=
  ((700 - 400) / (60 * fold_left Qplus (CIE.y cie) 0))%Q.

(** A state of the statics some calls may have led to: what is cached is
    what the initialiser computes. *)
Definition consistent {F : Type} {AF : Arith F} (cie : CIE.tables F)
    (st : Statics.statics F) : Prop :=
  (forall s, Statics.x st = Some s ->
     fromSamples (CIE.wavelengths cie) (CIE.x cie) CIE.sampleCount = Done s) /\
  (forall s, Statics.y st = Some s ->
     fromSamples (CIE.wavelengths cie) (CIE.y cie) CIE.sampleCount = Done s) /\
  (forall s, Statics.z st = Some s ->
     fromSamples (CIE.wavelengths cie) (CIE.z cie) CIE.sampleCount = Done s) /\
  (forall v, Statics.value st = Some v -> acquireIntegral cie = Done v).

(** A table of the declared size to run the definitions on: wavelengths
    360, 361, ..., 830 and three columns of small integers.  (The data of the
    CIE table itself is not part of the header.) *)
Definition test_tables {F : Type} {AF : Arith F} : CIE.tables F :=
  let ks := map Z.of_nat (seq 0 471) in
  {| CIE.wavelengths := map (fun k => of_Z (360 + k)) ks;
     CIE.x := map (fun k => of_Z (k mod 7)) ks;
     CIE.y := map (fun k => of_Z (1 + k mod 5)) ks;
     CIE.z := map (fun k => of_Z (k mod 3)) ks |}.

(** ** The statics as seen by a caller *)

(** What a computation on the statics returns, the state left aside. *)
Definition result {A S : Type} (m : exec (A * S)) : exec A :=
  r <- m ;; Done (fst r).

(** [st'] holds every static that [st] holds, with the same value. *)
Definition keeps {F : Type} (st st' : Statics.statics F) : Prop :=
  (forall s, Statics.x st = Some s -> Statics.x st' = Some s) /\
  (forall s, Statics.y st = Some s -> Statics.y st' = Some s) /\
  (forall s, Statics.z st = Some s -> Statics.z st' = Some s) /\
  (forall v, Statics.value st = Some v -> Statics.value st' = Some v).

(** [toXYZ] and [toRGB] with the initialisers run afresh: the value as a
    function of the table and of the spectrum alone. *)
Definition toXYZ_value {F : Type} {AF : Arith F} (cie : CIE.tables F)
    (samples : list F) : exec (Float3 F) :=
  sX <- fromSamples (CIE.wavelengths cie) (CIE.x cie) CIE.sampleCount ;;
  sY <- fromSamples (CIE.wavelengths cie) (CIE.y cie) CIE.sampleCount ;;
  sZ <- fromSamples (CIE.wavelengths cie) (CIE.z cie) CIE.sampleCount ;;
  xyz <- accumulate (N.to_nat SampleCount) sX sY sZ samples 0 (f0, f0, f0) ;;
  let '(x, y, z) := xyz in
  yint <- acquireIntegral cie ;;
  let scale :=
    ((of_uint32 WavelengthEnd - of_uint32 WavelengthBegin)
     / (of_uint32 SampleCount * yint))%fl in
  Done (mkFloat3 (x * scale)%fl (y * scale)%fl (z * scale)%fl).

Definition toRGB_value {F : Type} {AF : Arith F} (cie : CIE.tables F)
    (samples : list F) : exec (Float3 F) :=
  xyz <- toXYZ_value cie samples ;;
  let r := (lit 3240479 1000000 * a xyz - lit 1537150 1000000 * b xyz
            - lit 498535 1000000 * c xyz)%fl in
  let g := (- lit 969256 1000000 * a xyz + lit 1875991 1000000 * b xyz
            + lit 41556 1000000 * c xyz)%fl in
  let b' := (lit 55648 1000000 * a xyz - lit 204043 1000000 * b xyz
             + lit 1057311 1000000 * c xyz)%fl in
  Done (mkFloat3 r g b').

(** ** Laws of the arithmetic beyond the order

    What the statements about sums and products need besides [OrderLaws]:
    the order is transitive through [<=], [0.0f + 0.0f] is [0.0f], and the
    product commutes.  Both hold in binary32. *)
Class FloatLaws (F : Type) {AF : Arith F} : Prop := {
  lt_le_trans :
    forall x y z : F,
      (x <? y)%fl = true -> (y <=? z)%fl = true -> (x <? z)%fl = true;
  le_trans :
    forall x y z : F,
      (x <=? y)%fl = true -> (y <=? z)%fl = true -> (x <=? z)%fl = true;
  zero_plus_zero : (f0 + f0)%fl = f0 :> F;
  mul_comm : forall x y : F, (x * y)%fl = (y * x)%fl
}.

(** ** The data of binary32 *)

(** A [float] of the machine: a NaN, an infinity, a zero, or a finite number
    whose mantissa and exponent are those of the format. *)
Definition is_binary32 (x : spec_float) : bool :=
  valid_binary Binary32.prec Binary32.emax x.

(** Strictly positive: [0.0f < x], which holds of no NaN. *)
Definition positive32 (x : spec_float) : bool := SFltb (S754_zero false) x.

(** A number: neither NaN nor an infinity. *)
Definition is_finite (x : spec_float) : bool :=
  match x with
  | S754_zero _ | S754_finite _ _ _ => true
  | _ => false
  end.

(** A zero of either sign. *)
Definition is_zero (x : spec_float) : bool :=
  match x with
  | S754_zero _ => true
  | _ => false
  end.

(** The rational a finite float stands for: [(-1)^s * m * 2^e]. *)
Definition value (x : spec_float) : Q :=
  match x with
  | S754_finite s m e => (inject_Z (cond_Zopp s (Z.pos m)) * 2 ^ e)%Q
  | _ => 0%Q
  end.

(** ** The trapezoid sum, in the arithmetic of the code *)

Section Trapezoids.

Context {F : Type} {AF : Arith F}.

Local Open Scope float_scope.

(** The interpolant of segment [k] at [l], as the lambda [interpolate]
    writes it: [v[k]*(1-t) + v[k+1]*t] with
    [t = (l - w[k]) / (w[k+1] - w[k])]. *)
Definition interpolant (w v : list F) (k : nat) (l : F) : F :=
  let t := (l - nth k w f0) / (nth (S k) w f0 - nth k w f0) in
  nth k v f0 * (f1 - t) + nth (S k) v f0 * t.

(** The trapezoid of segment [k] over the part of [[lBegin, lEnd]] that lies
    in it: [0.5 * (f(l0) + f(l1)) * (l1 - l0)] with
    [l0 = max(lBegin, w[k])] and [l1 = min(lEnd, w[k+1])]. *)
Definition trapezoid (w v : list F) (lBegin lEnd : F) (k : nat) : F :=
  let l0 := fmax lBegin (nth k w f0) in
  let l1 := fmin lEnd (nth (S k) w f0) in
  fhalf * (interpolant w v k l0 + interpolant w v k l1) * (l1 - l0).

(** Segment [k] meets the interval: it does not end below [lBegin] and does
    not begin above [lEnd]. *)
Definition overlapped (w : list F) (lBegin lEnd : F) (k : nat) : bool :=
  negb (nth (S k) w f0 <? lBegin) && (nth k w f0 <=? lEnd).

(** The trapezoids of the segments that meet the interval, added from 0 in
    the order of the segments. *)
Definition trapezoid_sum (w v : list F) (lBegin lEnd : F) : F :=
  fold_left (fun acc k => acc + trapezoid w v lBegin lEnd k)
    (filter (overlapped w lBegin lEnd) (seq 0 (length w - 1))) f0.

(** The sum times [1 / (lEnd - lBegin)]: nothing is added for the part of
    the interval that no segment covers. *)
Definition trapezoid_average (w v : list F) (lBegin lEnd : F) : F :=
  trapezoid_sum w v lBegin lEnd * (f1 / (lEnd - lBegin)).

End Trapezoids.

(** The sentence "[averageSamples] returns the integral of the interpolant
    over the covered part of the interval, divided by the whole width", read
    of the machine: the float returned is a number, and its value is that
    quotient, taken of the values of the inputs. *)
Definition returns_integral (w v : list spec_float) (count : N)
    (lBegin lEnd : spec_float) : Prop :=
  exists r,
    averageSamples w v count lBegin lEnd = Done r /\
    is_finite r = true /\
    (value r
     == integral (map value w) (map value v)
          (Qmax (value lBegin) (nth 0 (map value w) 0))
          (Qmin (value lEnd) (nth (N.to_nat count - 1) (map value w) 0))
        / (value lEnd - value lBegin))%Q.

(** ** The sums of [toXYZ] and the matrix of [toRGB] *)

(** One channel of the loop of [toXYZ] from bin [from] on: the products
    [m[k] * s[k]] are added to [acc] in the order of the bins. *)
Definition channel {F : Type} {AF : Arith F} (m s : list F) (from : nat)
    (acc : F) : F :=
  fold_left (fun acc k => (acc + nth k m f0 * nth k s f0)%fl)
    (seq from (60 - from)) acc.

(** [sum_i s[i] * m[i]]: the products added from 0 in the order of the
    bins, in the arithmetic of the code. *)
Definition dot {F : Type} {AF : Arith F} (s m : list F) : F :=
  fold_left (fun acc i => (acc + nth i s f0 * nth i m f0)%fl) (seq 0 60) f0.


(** * Properties *)

(** ** uint32_t arithmetic without overflow *)

Lemma U32_add_small (a b : N) :
  (a + b < U32.modulus)%N -> U32.add a b = (a + b)%N.
Proof. intros H. unfold U32.add, U32.wrap. now apply N.mod_small. Qed.

Lemma U32_sub_small (a b : N) :
  (b <= a)%N -> (a < U32.modulus)%N -> U32.sub a b = (a - b)%N.
Proof.
  intros Hb Ha. unfold U32.sub, U32.wrap.
  replace (a + U32.modulus - b)%N with (a - b + 1 * U32.modulus)%N by lia.
  rewrite N.Div0.mod_add. apply N.mod_small. lia.
Qed.

(** ** Facts that hold in every arithmetic *)

Section Generic.

Context {F : Type} {AF : Arith F}.

Local Open Scope float_scope.

Lemma read_in (l : list F) (i : N) :
  (N.to_nat i < length l)%nat -> exists x, read l i = Done x.
Proof.
  intros H. unfold read.
  destruct (nth_error l (N.to_nat i)) eqn:E; [now eexists|].
  apply nth_error_None in E. lia.
Qed.

Lemma read_nth (l : list F) (i : N) (d : F) :
  (N.to_nat i < length l)%nat -> read l i = Done (nth (N.to_nat i) l d).
Proof.
  intros H. unfold read. now rewrite (nth_error_nth' l d H).
Qed.

Lemma read_Done_lt (l : list F) (i : N) (x : F) :
  read l i = Done x -> (N.to_nat i < length l)%nat.
Proof.
  unfold read. destruct (nth_error l (N.to_nat i)) eqn:E; [|discriminate].
  intros _. apply nth_error_Some. congruence.
Qed.

Lemma advance_eq fuel (w : list F) lBegin i :
  advance fuel w lBegin i =
  (w1 <- read w (U32.add i 1) ;;
   if lBegin >? w1 then
     match fuel with
     | O => OutOfFuel
     | S fuel' => advance fuel' w lBegin (U32.add i 1)
     end
   else Done i).
Proof. destruct fuel; reflexivity. Qed.

Lemma segments_eq fuel (w v : list F) count lBegin lEnd i result :
  segments fuel w v count lBegin lEnd i result =
  (if (U32.add i 1 <? count)%N then
    wi <- read w i ;;
    if lEnd >=? wi then
      wi' <- read w i ;;
      let l0 := fmax lBegin wi' in
      wi1 <- read w (U32.add i 1) ;;
      let l1 := fmin lEnd wi1 in
      a <- interpolate w v l0 i ;;
      b <- interpolate w v l1 i ;;
      let result := result + fhalf * (a + b) * (l1 - l0) in
      match fuel with
      | O => OutOfFuel
      | S fuel' => segments fuel' w v count lBegin lEnd (U32.add i 1) result
      end
    else Done result
  else Done result).
Proof. destruct fuel; reflexivity. Qed.

Section Cursor.

Variables (w : list F) (count : N) (lBegin : F).
Hypothesis Hlaw : lt_le_law.
Hypothesis Hcount : (count < U32.modulus)%N.
Hypothesis Hlen : length w = N.to_nat count.
Hypothesis Hlast :
  forall wl, read w (count - 1) = Done wl -> (lBegin >=? wl) = false.

(** The cursor stops at a segment whose right end is not below [lBegin],
    at the last segment at the latest, having skipped only segments whose
    right end is below [lBegin]. *)
Lemma advance_stops fuel i :
  (i + 1 < count)%N -> (N.to_nat count <= fuel + N.to_nat i + 2)%nat ->
  exists j,
    advance fuel w lBegin i = Done j /\ (i <= j)%N /\ (j + 1 < count)%N /\
    (forall x, read w (j + 1) = Done x -> (lBegin >? x) = false) /\
    (forall k x, (i <= k < j)%N -> read w (k + 1) = Done x ->
                 (lBegin >? x) = true).
Proof.
  revert i. induction fuel as [|fuel IH]; intros i Hi Hfuel.
  - assert (i + 1 = count - 1)%N as E by lia.
    rewrite advance_eq, U32_add_small by lia.
    destruct (read_in w (i + 1)) as [x Hx]; [lia|]. rewrite Hx. cbn [bind].
    destruct (lBegin >? x) eqn:Hgt.
    + apply Hlaw in Hgt. rewrite E in Hx. apply Hlast in Hx. congruence.
    + exists i. repeat split; try lia.
      intros y Hy. congruence.
  - rewrite advance_eq, U32_add_small by lia.
    destruct (read_in w (i + 1)) as [x Hx]; [lia|]. rewrite Hx. cbn [bind].
    destruct (lBegin >? x) eqn:Hgt.
    + assert (i + 1 + 1 < count)%N as Hi'.
      { destruct (N.eq_dec (i + 1) (count - 1)) as [E|E]; [|lia].
        apply Hlaw in Hgt. rewrite E in Hx. apply Hlast in Hx. congruence. }
      destruct (IH (i + 1)%N Hi') as (j & Hj & Hij & Hjc & Hstop & Hskip);
        [lia|].
      exists j. repeat split; try assumption; try lia.
      intros k y Hk Hy.
      destruct (N.eq_dec k i) as [->|Hne].
      * congruence.
      * apply (Hskip k y); [lia|assumption].
    + exists i. repeat split; try lia.
      intros y Hy. congruence.
Qed.

End Cursor.

Lemma interpolate_in (w v : list F) l i :
  (i + 1 < U32.modulus)%N ->
  (N.to_nat i + 1 < length w)%nat -> (N.to_nat i + 1 < length v)%nat ->
  exists r, interpolate w v l i = Done r.
Proof.
  intros Hm Hw Hv. unfold interpolate. rewrite U32_add_small by assumption.
  destruct (read_in w i) as [wi ->]; [lia|].
  destruct (read_in w (i + 1)) as [wi1 ->]; [lia|].
  destruct (read_in v i) as [vi ->]; [lia|].
  destruct (read_in v (i + 1)) as [vi1 ->]; [lia|].
  cbn [bind]. now eexists.
Qed.

Lemma segments_total (w v : list F) count lBegin lEnd fuel :
  (count < U32.modulus)%N ->
  length w = N.to_nat count -> length v = N.to_nat count ->
  forall i result,
    (i < count)%N -> (N.to_nat count <= fuel + N.to_nat i + 1)%nat ->
    exists r, segments fuel w v count lBegin lEnd i result = Done r.
Proof.
  intros Hc Hw Hv. induction fuel as [|fuel IH]; intros i result Hi Hfuel.
  - rewrite segments_eq, U32_add_small by lia.
    destruct (i + 1 <? count)%N eqn:E; [apply N.ltb_lt in E; lia|].
    now eexists.
  - rewrite segments_eq, U32_add_small by lia.
    destruct (i + 1 <? count)%N eqn:E; [apply N.ltb_lt in E|now eexists].
    destruct (read_in w i) as [wi ->]; [lia|]. cbn [bind].
    destruct (lEnd >=? wi); [|now eexists].
    destruct (read_in w (i + 1)) as [wi1 ->]; [lia|]. cbn [bind].
    destruct (interpolate_in w v (fmax lBegin wi) i) as [a ->];
      [lia|lia|lia|].
    destruct (interpolate_in w v (fmin lEnd wi1) i) as [b ->];
      [lia|lia|lia|].
    cbn [bind]. apply IH; lia.
Qed.

(** [averageSamples] returns, whatever the interval, on every table that has
    [count >= 1] entries. *)
Lemma averageSamples_total (w v : list F) count lBegin lEnd :
  lt_le_law ->
  (0 < count < U32.modulus)%N ->
  length w = N.to_nat count -> length v = N.to_nat count ->
  exists r, averageSamples w v count lBegin lEnd = Done r.
Proof.
  intros Hlaw Hc Hw Hv. unfold averageSamples.
  destruct (0 <? count)%N eqn:E0; [|apply N.ltb_ge in E0; lia].
  cbn [assert bind].
  destruct (count =? 1)%N eqn:E1.
  { apply read_in. lia. }
  apply N.eqb_neq in E1.
  destruct (read_in w 0) as [w0 ->]; [lia|]. cbn [bind].
  destruct (lEnd <=? w0). { apply read_in. lia. }
  rewrite U32_sub_small by lia.
  destruct (read_in w (count - 1)) as [wl Hwl]; [lia|]. rewrite Hwl.
  cbn [bind].
  destruct (lBegin >=? wl) eqn:Hge. { apply read_in. lia. }
  assert (forall x, read w (count - 1) = Done x -> (lBegin >=? x) = false)
    as Hlast by (intros x Hx; congruence).
  destruct (advance_stops w count lBegin Hlaw (proj2 Hc) Hw Hlast
              (N.to_nat count) 0%N) as (j & -> & _ & Hj & _); try lia.
  cbn [bind].
  match goal with
  | |- context [segments ?f w v count lBegin lEnd j ?r] =>
      destruct (segments_total w v count lBegin lEnd f (proj2 Hc) Hw Hv j r)
        as [r' ->]; [lia|lia|]
  end.
  cbn [bind]. now eexists.
Qed.

(** *** fromSamples *)

Lemma increasingb_step (l : list F) (d : F) (k : nat) :
  increasingb l = true -> (S k < length l)%nat ->
  (nth k l d <? nth (S k) l d) = true.
Proof.
  revert k. induction l as [|x [|y t] IH]; intros k Hinc Hk;
    cbn [length] in Hk; try lia.
  cbn [increasingb] in Hinc. apply andb_true_iff in Hinc as [Hxy Hinc].
  destruct k as [|k].
  - exact Hxy.
  - change ((nth k (y :: t) d <? nth (S k) (y :: t) d) = true).
    apply IH; [assumption|cbn [length]; lia].
Qed.

Lemma check_increasing_eq fuel (w : list F) count i :
  check_increasing fuel w count i =
  (if (U32.add i 1 <? count)%N then
    wi <- read w i ;;
    wi1 <- read w (U32.add i 1) ;;
    assert (wi <? wi1) ;;;
    match fuel with
    | O => OutOfFuel
    | S fuel' => check_increasing fuel' w count (U32.add i 1)
    end
  else Done tt).
Proof. destruct fuel; reflexivity. Qed.

(** The assertions of [fromSamples] pass on a strictly increasing table. *)
Lemma check_increasing_ok (w : list F) count fuel :
  (count < U32.modulus)%N -> length w = N.to_nat count ->
  increasingb w = true ->
  forall i, (i < count)%N -> (N.to_nat count <= fuel + N.to_nat i + 1)%nat ->
  check_increasing fuel w count i = Done tt.
Proof.
  intros Hc Hw Hinc. induction fuel as [|fuel IH]; intros i Hi Hfuel;
    rewrite check_increasing_eq, U32_add_small by lia.
  - destruct (N.ltb_spec (i + 1) count) as [E|E]; [lia|reflexivity].
  - destruct (N.ltb_spec (i + 1) count) as [E|E]; [|reflexivity].
    destruct w as [|d w']; [cbn [length] in Hw; lia|].
    rewrite (read_nth _ i d), (read_nth _ (i + 1) d) by lia.
    cbn [bind].
    replace (N.to_nat (i + 1)) with (S (N.to_nat i)) by lia.
    rewrite increasingb_step by (assumption || lia).
    cbn [assert bind]. apply IH; lia.
Qed.

Lemma update_length (l : list F) n x : length (update l n x) = length l.
Proof.
  revert n. induction l as [|h t IH]; intros [|n]; cbn; auto.
Qed.

Lemma update_same (l : list F) n x :
  (n < length l)%nat -> nth_error (update l n x) n = Some x.
Proof.
  revert n. induction l as [|h t IH]; intros [|n] H; cbn in *;
    try lia; auto. apply IH. lia.
Qed.

Lemma update_other (l : list F) n m x :
  n <> m -> nth_error (update l n x) m = nth_error l m.
Proof.
  revert n m. induction l as [|h t IH]; intros [|n] [|m] H; cbn;
    try congruence; auto.
Qed.

Lemma fill_eq fuel (w v : list F) count i result :
  fill fuel w v count i result =
  (if (i <? SampleCount)%N then
    let l0 := bin_begin i in
    let l1 := bin_end i in
    a <- averageSamples w v count l0 l1 ;;
    result <- set result i a ;;
    match fuel with
    | O => OutOfFuel
    | S fuel' => fill fuel' w v count (U32.add i 1) result
    end
  else Done result).
Proof. destruct fuel; reflexivity. Qed.

(** The bin loop stores the average of bin [k] at index [k] and leaves the
    bins below its start as they were. *)
Lemma fill_bins (w v : list F) count fuel :
  (forall k, (k < SampleCount)%N ->
     exists r, averageSamples w v count (bin_begin k) (bin_end k) = Done r) ->
  forall i result,
    length result = N.to_nat SampleCount -> (i <= SampleCount)%N ->
    (N.to_nat SampleCount <= fuel + N.to_nat i)%nat ->
    exists s,
      fill fuel w v count i result = Done s /\
      length s = N.to_nat SampleCount /\
      (forall k, (k < i)%N -> read s k = read result k) /\
      (forall k, (i <= k < SampleCount)%N ->
         exists r,
           averageSamples w v count (bin_begin k) (bin_end k) = Done r /\
           read s k = Done r).
Proof.
  intros Havg. unfold SampleCount in *.
  induction fuel as [|fuel IH]; intros i result Hlen Hi Hfuel;
    rewrite fill_eq; unfold SampleCount.
  - destruct (N.ltb_spec i 60) as [E|E]; [lia|].
    exists result. repeat split; try assumption; intros; lia.
  - destruct (N.ltb_spec i 60) as [E|E].
    + cbv zeta. destruct (Havg i E) as [r Hr]. rewrite Hr. cbn [bind].
      unfold set, SampleCount.
      destruct (N.ltb_spec i 60) as [_|?]; [|lia]. cbn [assert bind].
      destruct (read_in result i) as [old ->]; [lia|]. cbn [bind].
      rewrite U32_add_small by (unfold U32.modulus; lia).
      destruct (IH (i + 1)%N (update result (N.to_nat i) r))
        as (s & Hs & Hslen & Hbelow & Habove);
        [rewrite update_length; assumption|lia|lia|].
      exists s. repeat split; try assumption.
      * intros k Hk. rewrite Hbelow by lia. unfold read.
        rewrite update_other by lia. reflexivity.
      * intros k Hk. destruct (N.eq_dec k i) as [->|Hne].
        -- exists r. split; [assumption|].
           rewrite Hbelow by lia. unfold read.
           rewrite update_same by lia. reflexivity.
        -- apply Habove. lia.
    + exists result. repeat split; try assumption; intros; lia.
Qed.

(** [fromSamples] on a well-formed table: bin [k] holds what
    [averageSamples] returns on the bounds of bin [k]. *)
Lemma fromSamples_bins (w v : list F) count :
  lt_le_law ->
  (0 < count < U32.modulus)%N ->
  length w = N.to_nat count -> length v = N.to_nat count ->
  increasingb w = true ->
  exists s,
    fromSamples w v count = Done s /\
    length s = N.to_nat SampleCount /\
    (forall k, (k < SampleCount)%N ->
       exists r,
         averageSamples w v count (bin_begin k) (bin_end k) = Done r /\
         read s k = Done r).
Proof.
  intros Hlaw Hc Hw Hv Hinc. unfold fromSamples.
  rewrite check_increasing_ok by (assumption || lia). cbn [bind].
  destruct (fill_bins w v count (N.to_nat SampleCount)) with
    (i := 0%N) (result := make f0) as (s & Hs & Hlen & _ & Hbins).
  - intros k _. now apply averageSamples_total.
  - apply repeat_length.
  - unfold SampleCount. lia.
  - lia.
  - exists s. repeat split; try assumption.
    intros k Hk. apply Hbins. lia.
Qed.

End Generic.

(** ** Exact arithmetic *)

Lemma Qltb_lt (a b : Q) : Qltb a b = true <-> (a < b)%Q.
Proof.
  unfold Qltb. rewrite negb_true_iff. split; intros H.
  - apply Qnot_le_lt. intros Hle. apply Qle_bool_iff in Hle. congruence.
  - destruct (Qle_bool b a) eqn:E; [|reflexivity].
    apply Qle_bool_iff in E. apply Qle_not_lt in E. contradiction.
Qed.

Lemma Qltb_ge (a b : Q) : Qltb a b = false <-> (b <= a)%Q.
Proof.
  unfold Qltb. rewrite negb_false_iff. apply Qle_bool_iff.
Qed.

Lemma Qle_bool_gt (a b : Q) : Qle_bool a b = false <-> (b < a)%Q.
Proof.
  rewrite <- Qltb_lt. unfold Qltb. now rewrite negb_true_iff.
Qed.

Lemma exact_lt_le : lt_le_law (F := Q).
Proof.
  intros x y H. cbn in *. apply Qltb_lt in H. apply Qle_bool_iff.
  now apply Qlt_le_weak.
Qed.

(** Turn the tests of the code, read in [exact], into order facts. *)
Ltac exact_ops :=
  cbn [fadd fsub fmul fdiv fopp fltb fleb of_Z exact] in *.

Ltac exact_order :=
  exact_ops;
  repeat match goal with
  | H : Qltb _ _ = true |- _ => apply Qltb_lt in H
  | H : Qltb _ _ = false |- _ => apply Qltb_ge in H
  | H : Qle_bool _ _ = true |- _ => apply Qle_bool_iff in H
  | H : Qle_bool _ _ = false |- _ => apply Qle_bool_gt in H
  end.

Section Exact.

Local Open Scope Q_scope.

Implicit Types (w v : list Q) (k : nat).

(** Strictly increasing tables are strictly ordered at any two indices. *)
Lemma increasing_step w k :
  increasingb w = true -> (S k < length w)%nat ->
  nth k w 0 < nth (S k) w 0.
Proof.
  intros Hinc Hk. pose proof (increasingb_step w 0 k Hinc Hk) as H.
  exact_order. exact H.
Qed.

Lemma increasing_lt w i j :
  increasingb w = true -> (i < j < length w)%nat ->
  nth i w 0 < nth j w 0.
Proof.
  intros Hinc [Hij Hj]. induction j as [|j IH]; [lia|].
  destruct (Nat.eq_dec i j) as [->|Hne].
  - now apply increasing_step.
  - apply Qlt_trans with (nth j w 0); [apply IH; lia|].
    now apply increasing_step.
Qed.

Lemma increasing_le w i j :
  increasingb w = true -> (i <= j < length w)%nat ->
  nth i w 0 <= nth j w 0.
Proof.
  intros Hinc [Hij Hj]. destruct (Nat.eq_dec i j) as [->|Hne].
  - apply Qle_refl.
  - apply Qlt_le_weak, increasing_lt; [assumption|lia].
Qed.

Lemma Qsum_cons (x : Q) (l : list Q) : Qsum (x :: l) = x + Qsum l.
Proof. reflexivity. Qed.

Lemma Qsum_app (l1 l2 : list Q) : Qsum (l1 ++ l2) == Qsum l1 + Qsum l2.
Proof.
  induction l1 as [|x l1 IH].
  - change (Qsum l2 == 0 + Qsum l2). lra.
  - change (x + Qsum (l1 ++ l2) == x + Qsum l1 + Qsum l2). lra.
Qed.

Lemma Qsum_zero (f : nat -> Q) (ks : list nat) :
  (forall k, In k ks -> f k == 0) -> Qsum (map f ks) == 0.
Proof.
  induction ks as [|k ks IH]; intros H.
  - reflexivity.
  - change (f k + Qsum (map f ks) == 0).
    assert (f k == 0) as E1 by (apply H; now left).
    assert (Qsum (map f ks) == 0) as E2.
    { apply IH. intros k' Hk'. apply H. now right. }
    lra.
Qed.

Lemma Qsum_linear (f g h : nat -> Q) (p q : Q) (ks : list nat) :
  (forall k, In k ks -> f k == p * g k + q * h k) ->
  Qsum (map f ks) == p * Qsum (map g ks) + q * Qsum (map h ks).
Proof.
  induction ks as [|k ks IH]; intros H.
  - change (0 == p * 0 + q * 0). lra.
  - cbn [map]. rewrite !Qsum_cons, IH, (H k).
    + ring.
    + now left.
    + intros k' Hk'. apply H. now right.
Qed.

(** *** The segment loop computes the integral *)

Lemma interpolate_exact w v (l : Q) (i : N) :
  (i + 1 < U32.modulus)%N ->
  (N.to_nat i + 1 < length w)%nat -> (N.to_nat i + 1 < length v)%nat ->
  interpolate w v l i = Done (interpolated w v (N.to_nat i) l).
Proof.
  intros Hm Hw Hv. unfold interpolate. rewrite U32_add_small by assumption.
  rewrite (read_nth w i 0), (read_nth w (i + 1) 0) by lia.
  rewrite (read_nth v i 0), (read_nth v (i + 1) 0) by lia.
  cbn [bind]. replace (N.to_nat (i + 1)) with (S (N.to_nat i)) by lia.
  reflexivity.
Qed.

(** [interpolate] is the local linear interpolant of the specification. *)
Lemma interpolated_line w v k l :
  nth k w 0 < nth (S k) w 0 -> interpolated w v k l == line w v k l.
Proof.
  intros H. unfold interpolated, line. field. lra.
Qed.

(** The trapezoid rule is exact on a segment. *)
Lemma trapezoid_exact w v k (l0 l1 : Q) :
  nth k w 0 < nth (S k) w 0 ->
  (1 / 2) * (interpolated w v k l0 + interpolated w v k l1) * (l1 - l0)
  == primitive w v k l1 - primitive w v k l0.
Proof.
  intros H. unfold interpolated, primitive. field. lra.
Qed.

(** [line] passes through the samples, and the difference of [primitive]
    over [[p, q]] is the width times the value of [line] at the midpoint:
    the area under a straight line. *)
Lemma line_at_knots w v k :
  nth k w 0 < nth (S k) w 0 ->
  line w v k (nth k w 0) == nth k v 0 /\
  line w v k (nth (S k) w 0) == nth (S k) v 0.
Proof.
  intros H. unfold line. split; field; lra.
Qed.

Lemma primitive_difference w v k (p q : Q) :
  nth k w 0 < nth (S k) w 0 ->
  primitive w v k q - primitive w v k p
  == (q - p) * line w v k ((p + q) / 2).
Proof.
  intros H. unfold primitive, line. field. lra.
Qed.

Lemma primitive_proper w v k (p q : Q) :
  p == q -> primitive w v k p == primitive w v k q.
Proof. intros E. unfold primitive. now rewrite E. Qed.

Section Walk.

Variables (w v : list Q) (count : N) (lBegin lEnd : Q).
Hypothesis Hcount : (2 <= count < U32.modulus)%N.
Hypothesis Hw : length w = N.to_nat count.
Hypothesis Hv : length v = N.to_nat count.
Hypothesis Hinc : increasingb w = true.
Hypothesis Hint : lBegin < lEnd.

(** The intersection of the query interval with the covered range. *)
Local Abbreviation lo := (Qmax lBegin (nth 0 w 0)).
Local Abbreviation hi := (Qmin lEnd (nth (N.to_nat count - 1) w 0)).

(** A segment the loop visits adds its share of the integral. *)
Lemma visited_segment k :
  (S k < length w)%nat ->
  lBegin <= nth (S k) w 0 -> nth k w 0 <= lEnd ->
  (1 / 2)
  * (interpolated w v k (fmax lBegin (nth k w 0))
     + interpolated w v k (fmin lEnd (nth (S k) w 0)))
  * (fmin lEnd (nth (S k) w 0) - fmax lBegin (nth k w 0))
  == segment_integral w v k lo hi.
Proof.
  intros Hk Hb He.
  assert (nth k w 0 < nth (S k) w 0) as Hstep
    by (apply increasing_step; assumption).
  assert (nth 0 w 0 <= nth k w 0) as H0
    by (apply increasing_le; [assumption|lia]).
  assert (nth (S k) w 0 <= nth (N.to_nat count - 1) w 0) as Hl
    by (apply increasing_le; [assumption|lia]).
  rewrite trapezoid_exact by assumption.
  assert (Qmax lo (nth k w 0) == fmax lBegin (nth k w 0)) as Ep.
  { unfold fmax.
    destruct (Q.max_spec lBegin (nth 0 w 0)) as [[? E1]|[? E1]];
    destruct (Q.max_spec (Qmax lBegin (nth 0 w 0)) (nth k w 0))
      as [[? E2]|[? E2]];
    destruct (lBegin <? nth k w 0)%fl eqn:E3; exact_order; lra. }
  assert (Qmin hi (nth (S k) w 0) == fmin lEnd (nth (S k) w 0)) as Eh.
  { unfold fmin.
    destruct (Q.min_spec lEnd (nth (N.to_nat count - 1) w 0))
      as [[? E1]|[? E1]];
    destruct (Q.min_spec (Qmin lEnd (nth (N.to_nat count - 1) w 0))
                (nth (S k) w 0)) as [[? E2]|[? E2]];
    destruct (nth (S k) w 0 <? lEnd)%fl eqn:E3; exact_order; lra. }
  assert (fmax lBegin (nth k w 0) <= fmin lEnd (nth (S k) w 0)) as Hord.
  { unfold fmax, fmin.
    destruct (lBegin <? nth k w 0)%fl eqn:E3;
    destruct (nth (S k) w 0 <? lEnd)%fl eqn:E4; exact_order; lra. }
  unfold segment_integral. cbv zeta.
  destruct (Qltb (Qmax lo (nth k w 0)) (Qmin hi (nth (S k) w 0))) eqn:E.
  - rewrite (primitive_proper w v k _ _ Ep), (primitive_proper w v k _ _ Eh).
    reflexivity.
  - exact_order.
    assert (fmin lEnd (nth (S k) w 0) == fmax lBegin (nth k w 0)) as E'
      by lra.
    rewrite (primitive_proper w v k _ _ E'). lra.
Qed.

(** A segment wholly before or wholly after the interval adds nothing. *)
Lemma skipped_segment_before k :
  (S k < length w)%nat -> nth (S k) w 0 < lBegin ->
  segment_integral w v k lo hi == 0.
Proof.
  intros Hk Hb. unfold segment_integral. cbv zeta.
  destruct (Qltb (Qmax lo (nth k w 0)) (Qmin hi (nth (S k) w 0))) eqn:E;
    [|reflexivity].
  exfalso. exact_order.
  pose proof (Q.le_max_l lo (nth k w 0)).
  pose proof (Q.le_min_r hi (nth (S k) w 0)).
  pose proof (Q.le_max_l lBegin (nth 0 w 0)). lra.
Qed.

Lemma skipped_segment_after k :
  (S k < length w)%nat -> lEnd < nth k w 0 ->
  segment_integral w v k lo hi == 0.
Proof.
  intros Hk Hb. unfold segment_integral. cbv zeta.
  destruct (Qltb (Qmax lo (nth k w 0)) (Qmin hi (nth (S k) w 0))) eqn:E;
    [|reflexivity].
  exfalso. exact_order.
  pose proof (Q.le_max_r lo (nth k w 0)).
  pose proof (Q.le_min_l hi (nth (S k) w 0)).
  pose proof (Q.le_min_l lEnd (nth (N.to_nat count - 1) w 0)). lra.
Qed.

(** The loop, started at a segment whose right end is not before [lBegin],
    adds the integral over all the segments from there on. *)
Lemma segments_integral fuel :
  forall (i : N) (result : Q),
    (i < count)%N -> (N.to_nat count <= fuel + N.to_nat i + 1)%nat ->
    ((i + 1 < count)%N -> lBegin <= nth (S (N.to_nat i)) w 0) ->
    exists r,
      segments fuel w v count lBegin lEnd i result = Done r /\
      r == result
           + Qsum (map (fun k => segment_integral w v k lo hi)
                     (seq (N.to_nat i) (N.to_nat count - 1 - N.to_nat i))).
Proof.
  induction fuel as [|fuel IH]; intros i result Hi Hfuel Hb.
  - rewrite segments_eq, U32_add_small by lia.
    destruct (i + 1 <? count)%N eqn:E; [apply N.ltb_lt in E; lia|].
    exists result. split; [reflexivity|].
    replace (N.to_nat count - 1 - N.to_nat i)%nat with O by lia.
    cbn. lra.
  - rewrite segments_eq, U32_add_small by lia.
    destruct (i + 1 <? count)%N eqn:E.
    + apply N.ltb_lt in E. specialize (Hb E).
      rewrite (read_nth w i 0) by lia. cbn [bind].
      destruct (lEnd >=? nth (N.to_nat i) w 0)%fl eqn:Hge.
      * rewrite (read_nth w (i + 1) 0) by lia. cbn [bind].
        rewrite !interpolate_exact by lia. cbn [bind].
        replace (N.to_nat (i + 1)) with (S (N.to_nat i)) by lia.
        destruct (IH (i + 1)%N
          (result
           + fhalf
             * (interpolated w v (N.to_nat i)
                  (fmax lBegin (nth (N.to_nat i) w 0))
                + interpolated w v (N.to_nat i)
                    (fmin lEnd (nth (S (N.to_nat i)) w 0)))
             * (fmin lEnd (nth (S (N.to_nat i)) w 0)
                - fmax lBegin (nth (N.to_nat i) w 0)))%fl)
          as (r & Hr & Er); [lia|lia| |].
        { intros Hi'. replace (N.to_nat (i + 1)) with (S (N.to_nat i)) by lia.
          apply Qle_trans with (nth (S (N.to_nat i)) w 0); [assumption|].
          apply increasing_le; [assumption|lia]. }
        exists r. split; [exact Hr|].
        replace (N.to_nat count - 1 - N.to_nat i)%nat
          with (S (N.to_nat count - 1 - N.to_nat (i + 1))) by lia.
        cbn [seq map]. rewrite Qsum_cons.
        replace (S (N.to_nat i)) with (N.to_nat (i + 1)) by lia.
        rewrite Er. exact_order.
        change (fhalf (F := Q)) with (1 / 2).
        replace (N.to_nat (i + 1)) with (S (N.to_nat i)) by lia.
        rewrite visited_segment; [lra|lia|assumption|assumption].
      * exists result. split; [reflexivity|].
        rewrite Qsum_zero; [lra|].
        intros k Hk. apply in_seq in Hk. exact_order.
        apply skipped_segment_after; [lia|].
        apply Qlt_le_trans with (nth (N.to_nat i) w 0); [assumption|].
        apply increasing_le; [assumption|lia].
    + apply N.ltb_ge in E. exists result. split; [reflexivity|].
      replace (N.to_nat count - 1 - N.to_nat i)%nat with O by lia.
      cbn. lra.
Qed.

(** Past the two clamping tests, [averageSamples] returns the integral over
    the covered part of the interval, divided by the whole width. *)
Lemma averageSamples_integral :
  nth 0 w 0 < lEnd -> lBegin < nth (N.to_nat count - 1) w 0 ->
  exists r,
    averageSamples w v count lBegin lEnd = Done r /\
    r == integral w v lo hi / (lEnd - lBegin).
Proof.
  intros H0 Hl. unfold averageSamples.
  destruct (0 <? count)%N eqn:E0; [|apply N.ltb_ge in E0; lia].
  cbn [assert bind].
  destruct (count =? 1)%N eqn:E1; [apply N.eqb_eq in E1; lia|].
  rewrite (read_nth w 0 0) by lia. cbn [bind].
  change (N.to_nat 0) with O.
  destruct (lEnd <=? nth 0 w 0)%fl eqn:T0; [exact_order; lra|].
  rewrite U32_sub_small by lia.
  rewrite (read_nth w (count - 1) 0) by lia. cbn [bind].
  replace (N.to_nat (count - 1)) with (N.to_nat count - 1)%nat by lia.
  destruct (lBegin >=? nth (N.to_nat count - 1) w 0)%fl eqn:Tl;
    [exact_order; lra|].
  destruct (advance_stops w count lBegin exact_lt_le (proj2 Hcount) Hw)
    with (fuel := N.to_nat count) (i := 0%N)
    as (j & -> & _ & Hj & Hstop & Hskip); try lia.
  { intros wl Hwl. rewrite (read_nth w (count - 1) 0) in Hwl by lia.
    injection Hwl as <-.
    replace (N.to_nat (count - 1)) with (N.to_nat count - 1)%nat by lia.
    exact Tl. }
  cbn [bind].
  match goal with
  | |- context [segments ?f w v count lBegin lEnd j ?r0] =>
      destruct (segments_integral f j r0) as (r & -> & Er); [lia|lia| |];
      [|assert (r0 == 0) as Er0]
  end.
  { intros _. specialize (Hstop (nth (N.to_nat (j + 1)) w 0)).
    rewrite (read_nth w (j + 1) 0) in Hstop by lia.
    specialize (Hstop eq_refl). exact_order.
    replace (S (N.to_nat j)) with (N.to_nat (j + 1)) by lia. exact Hstop. }
  { destruct (lBegin <? nth 0 w 0)%fl, (lEnd >? nth (N.to_nat count - 1) w 0)%fl;
      exact_ops; unfold f0; exact_ops; change (inject_Z 0) with 0; lra. }
  cbn [bind]. eexists. split; [reflexivity|].
  unfold integral. rewrite Hw.
  replace (seq 0 (N.to_nat count - 1))
    with (seq 0 (N.to_nat j + (N.to_nat count - 1 - N.to_nat j)))
    by (f_equal; lia).
  rewrite seq_app, map_app, Qsum_app. cbn [Nat.add].
  rewrite Qsum_zero.
  - rewrite Er, Er0. exact_ops. unfold f1. exact_ops.
    change (inject_Z 1) with 1. field. lra.
  - intros k Hk. apply in_seq in Hk.
    apply skipped_segment_before; [lia|].
    specialize (Hskip (N.of_nat k) (nth (S k) w 0)).
    rewrite (read_nth w (N.of_nat k + 1) 0) in Hskip by lia.
    replace (N.to_nat (N.of_nat k + 1)) with (S k) in Hskip by lia.
    specialize (Hskip ltac:(lia) eq_refl). exact_order. exact Hskip.
Qed.

End Walk.

(** *** The integral is additive

    On each segment the integral over [[a, b]] is the difference of the
    antiderivative at the two ends brought into the segment; the integrals
    over adjacent intervals therefore add up. *)

Lemma segment_integral_clamped w v k (a b : Q) :
  nth k w 0 < nth (S k) w 0 -> a <= b ->
  segment_integral w v k a b
  == primitive w v k (clamp (nth k w 0) (nth (S k) w 0) b)
     - primitive w v k (clamp (nth k w 0) (nth (S k) w 0) a).
Proof.
  intros Hk Hab. unfold segment_integral, clamp. cbv zeta.
  destruct (Q.max_spec a (nth k w 0)) as [[? Ep]|[? Ep]];
  destruct (Q.min_spec b (nth (S k) w 0)) as [[? Eq']|[? Eq']];
  destruct (Q.min_spec a (nth (S k) w 0)) as [[? Ea]|[? Ea]];
  destruct (Q.max_spec (nth k w 0) (Qmin b (nth (S k) w 0)))
    as [[? Eb']|[? Eb']];
  destruct (Q.max_spec (nth k w 0) (Qmin a (nth (S k) w 0)))
    as [[? Ea']|[? Ea']];
  destruct (Qltb (Qmax a (nth k w 0)) (Qmin b (nth (S k) w 0))) eqn:E;
  exact_order; try lra.
  all: try (rewrite (primitive_proper w v k
                       (Qmax (nth k w 0) (Qmin b (nth (S k) w 0)))
                       (Qmin b (nth (S k) w 0))) by lra;
            rewrite (primitive_proper w v k
                       (Qmax (nth k w 0) (Qmin a (nth (S k) w 0)))
                       (Qmax a (nth k w 0))) by lra;
            lra).
  all: rewrite (primitive_proper w v k
                  (Qmax (nth k w 0) (Qmin b (nth (S k) w 0)))
                  (Qmax (nth k w 0) (Qmin a (nth (S k) w 0)))) by lra;
       lra.
Qed.

Lemma integral_additive w v (a m b : Q) :
  increasingb w = true -> a <= m -> m <= b ->
  integral w v a m + integral w v m b == integral w v a b.
Proof.
  intros Hinc Ham Hmb. unfold integral. symmetry.
  rewrite (Qsum_linear (fun k => segment_integral w v k a b)
             (fun k => segment_integral w v k a m)
             (fun k => segment_integral w v k m b) 1 1).
  - lra.
  - intros k Hk. apply in_seq in Hk.
    pose proof (increasing_step w k Hinc ltac:(lia)) as Hstep.
    rewrite !segment_integral_clamped by (assumption || lra). lra.
Qed.

(** *** The integral of a constant input *)

Section Constant.

Variables (w v : list Q) (c : Q).
Hypothesis Hlen : length v = length w.
Hypothesis Hinc : increasingb w = true.
Hypothesis Hconst : forall k, (k < length v)%nat -> nth k v 0 == c.

Lemma primitive_constant k (l : Q) :
  (S k < length w)%nat -> primitive w v k l == c * l.
Proof.
  intros Hk. unfold primitive.
  rewrite (Hconst k), (Hconst (S k)) by lia.
  pose proof (increasing_step w k Hinc Hk). field. lra.
Qed.

Lemma segment_integral_constant k (a b : Q) :
  (S k < length w)%nat ->
  segment_integral w v k a b
  == c * Qmax 0 (Qmin b (nth (S k) w 0) - Qmax a (nth k w 0)).
Proof.
  intros Hk. unfold segment_integral. cbv zeta.
  destruct (Q.max_spec 0 (Qmin b (nth (S k) w 0) - Qmax a (nth k w 0)))
    as [[Hm ->]|[Hm ->]];
  destruct (Qltb (Qmax a (nth k w 0)) (Qmin b (nth (S k) w 0))) eqn:E;
    exact_order; rewrite ?primitive_constant by assumption; lra.
Qed.

Lemma integral_constant_upto (a b : Q) (m : nat) :
  nth 0 w 0 <= a -> a <= b -> (m < length w)%nat ->
  Qsum (map (fun k => segment_integral w v k a b) (seq 0 m))
  == c * Qmax 0 (Qmin b (nth m w 0) - a).
Proof.
  intros Ha Hab. induction m as [|m IH]; intros Hm.
  - change (0 == c * Qmax 0 (Qmin b (nth 0 w 0) - a)).
    destruct (Q.max_spec 0 (Qmin b (nth 0 w 0) - a)) as [[Hx ->]|[Hx ->]];
      [|lra].
    pose proof (Q.le_min_r b (nth 0 w 0)). lra.
  - rewrite seq_S, map_app, Qsum_app, IH by lia. cbn [Nat.add map].
    rewrite Qsum_cons. change (Qsum []) with 0.
    rewrite segment_integral_constant by assumption.
    pose proof (increasing_step w m Hinc Hm) as Hstep.
    pose proof (increasing_le w 0 m Hinc ltac:(lia)) as H0m.
    assert (Qmax 0 (Qmin b (nth m w 0) - a)
            + Qmax 0 (Qmin b (nth (S m) w 0) - Qmax a (nth m w 0))
            == Qmax 0 (Qmin b (nth (S m) w 0) - a)) as <-.
    { destruct (Q.max_spec 0 (Qmin b (nth m w 0) - a)) as [[? ->]|[? ->]];
      destruct (Q.max_spec 0 (Qmin b (nth (S m) w 0) - Qmax a (nth m w 0)))
        as [[? ->]|[? ->]];
      destruct (Q.max_spec 0 (Qmin b (nth (S m) w 0) - a))
        as [[? ->]|[? ->]];
      destruct (Q.min_spec b (nth m w 0)) as [[? E1]|[? E1]];
      destruct (Q.min_spec b (nth (S m) w 0)) as [[? E2]|[? E2]];
      destruct (Q.max_spec a (nth m w 0)) as [[? E3]|[? E3]];
      lra. }
    lra.
Qed.

(** Over an interval inside the covered range, the integral of a constant
    input is the constant times the width. *)
Lemma integral_constant (a b : Q) :
  (1 <= length w)%nat ->
  nth 0 w 0 <= a -> a <= b -> b <= nth (length w - 1) w 0 ->
  integral w v a b == c * (b - a).
Proof.
  intros Hn Ha Hab Hb. unfold integral.
  rewrite integral_constant_upto by (assumption || lia).
  destruct (Q.max_spec 0 (Qmin b (nth (length w - 1) w 0) - a))
    as [[? ->]|[? ->]];
  destruct (Q.min_spec b (nth (length w - 1) w 0)) as [[? E1]|[? E1]];
    try rewrite E1; try lra.
  - assert (nth (length w - 1) w 0 == b) as -> by lra. lra.
  - assert (b - a == 0) as -> by lra. lra.
  - assert (b - a == 0) as -> by lra. lra.
Qed.

End Constant.

End Exact.

(** ** The order laws of the two arithmetics *)

#[export] Instance exact_order_laws : OrderLaws Q.
Proof.
  split.
  - intros x y H. exact_order. apply Qle_bool_iff. lra.
  - intros x y z H1 H2. exact_order. apply Qltb_lt. lra.
  - intros x y z H1 H2. exact_order. apply Qltb_lt. lra.
  - intros x y H. exact_order. apply Qle_bool_gt. lra.
Qed.

Lemma increasingb_lt {F : Type} {AF : Arith F} {OL : OrderLaws F}
    (l : list F) (d : F) (i j : nat) :
  increasingb l = true -> (i < j < length l)%nat ->
  (nth i l d <? nth j l d)%fl = true.
Proof.
  intros Hinc [Hij Hj]. induction j as [|j IH]; [lia|].
  destruct (Nat.eq_dec i j) as [->|Hne].
  - now apply increasingb_step.
  - apply lt_trans with (nth j l d); [apply IH; lia|].
    now apply increasingb_step.
Qed.

(** *** The order of binary32 *)

Import Binary32Order.

Lemma SFcompare_key (x y : spec_float) :
  SFcompare x y =
  match key x, key y with
  | Some p, Some q => Some (lex p q)
  | _, _ => None
  end.
Proof.
  destruct x as [[|]|[|]| |[|] m1 e1], y as [[|]|[|]| |[|] m2 e2];
    try reflexivity.
  - cbn [SFcompare key lex]. rewrite Z.compare_opp, (Z.compare_antisym e1 e2).
    destruct (e1 ?= e2)%Z; reflexivity.
Qed.

Lemma lex_Lt p q :
  lex p q = Lt <->
  let '(p1, p2, p3) := p in
  let '(q1, q2, q3) := q in
  (p1 < q1 \/ (p1 = q1 /\ (p2 < q2 \/ (p2 = q2 /\ p3 < q3))))%Z.
Proof.
  destruct p as [[p1 p2] p3], q as [[q1 q2] q3]. unfold lex.
  destruct (Z.compare_spec p1 q1); [destruct (Z.compare_spec p2 q2);
    [destruct (Z.compare_spec p3 q3)|..]|..];
    split; intros H'; try discriminate; try reflexivity; lia.
Qed.

Lemma lex_Gt p q :
  lex p q = Gt <->
  let '(p1, p2, p3) := p in
  let '(q1, q2, q3) := q in
  (q1 < p1 \/ (p1 = q1 /\ (q2 < p2 \/ (p2 = q2 /\ q3 < p3))))%Z.
Proof.
  destruct p as [[p1 p2] p3], q as [[q1 q2] q3]. unfold lex.
  destruct (Z.compare_spec p1 q1); [destruct (Z.compare_spec p2 q2);
    [destruct (Z.compare_spec p3 q3)|..]|..];
    split; intros H'; try discriminate; try reflexivity; lia.
Qed.

Lemma SFltb_key (x y : spec_float) :
  SFltb x y = true <->
  exists p q, key x = Some p /\ key y = Some q /\ lex p q = Lt.
Proof.
  unfold SFltb. rewrite SFcompare_key.
  destruct (key x) as [p|], (key y) as [q|]; split;
    try discriminate; try (intros (? & ? & ? & ? & ?); discriminate).
  - destruct (lex p q) eqn:E; try discriminate. intros _. now exists p, q.
  - intros (p' & q' & [= <-] & [= <-] & ->). reflexivity.
Qed.

Lemma SFleb_key (x y : spec_float) :
  SFleb x y = true <->
  exists p q, key x = Some p /\ key y = Some q /\ lex p q <> Gt.
Proof.
  unfold SFleb. rewrite SFcompare_key.
  destruct (key x) as [p|], (key y) as [q|]; split;
    try discriminate; try (intros (? & ? & ? & ? & ?); discriminate).
  - destruct (lex p q) eqn:E; try discriminate; intros _; exists p, q;
      rewrite E; repeat split; discriminate.
  - intros (p' & q' & [= <-] & [= <-] & H).
    destruct (lex p q); try reflexivity. now contradiction H.
Qed.

#[export] Instance binary32_order_laws : OrderLaws spec_float.
Proof.
  split; cbn [fltb fleb binary32].
  - intros x y H. unfold SFltb in H. unfold SFleb.
    destruct (SFcompare x y) as [[| |]|]; try discriminate; reflexivity.
  - intros x y z H1 H2.
    apply SFltb_key in H1 as (p & q & Hp & Hq & H1).
    apply SFltb_key in H2 as (q' & r & Hq' & Hr & H2).
    rewrite Hq in Hq'. injection Hq' as <-.
    apply SFltb_key. exists p, r. repeat split; try assumption.
    apply lex_Lt in H1, H2. apply lex_Lt.
    destruct p as [[p1 p2] p3], q as [[q1 q2] q3], r as [[r1 r2] r3]. lia.
  - intros x y z H1 H2.
    apply SFleb_key in H1 as (p & q & Hp & Hq & H1).
    apply SFltb_key in H2 as (q' & r & Hq' & Hr & H2).
    rewrite Hq in Hq'. injection Hq' as <-.
    apply SFltb_key. exists p, r. repeat split; try assumption.
    assert (~ (let '(p1, p2, p3) := p in
               let '(q1, q2, q3) := q in
               (q1 < p1 \/ (p1 = q1 /\ (q2 < p2 \/ (p2 = q2 /\ q3 < p3))))%Z))
      as H1' by (intros H; apply lex_Gt in H; contradiction).
    apply lex_Lt in H2. apply lex_Lt.
    destruct p as [[p1 p2] p3], q as [[q1 q2] q3], r as [[r1 r2] r3]. lia.
  - intros x y H.
    apply SFltb_key in H as (p & q & Hp & Hq & H).
    destruct (SFleb y x) eqn:E; [|reflexivity].
    apply SFleb_key in E as (q' & p' & Hq' & Hp' & E).
    rewrite Hq in Hq'. injection Hq' as <-.
    rewrite Hp in Hp'. injection Hp' as <-.
    exfalso. apply E. apply lex_Gt.
    apply lex_Lt in H.
    destruct p as [[p1 p2] p3], q as [[q1 q2] q3]. lia.
Qed.

(** *** What carries over to the machine

    The control flow of [averageSamples] is the same in binary32: it returns
    on every table. *)

Corollary averageSamples_total_binary32 (w v : list spec_float) (count : N)
    (lBegin lEnd : spec_float) :
  (0 < count < U32.modulus)%N ->
  length w = N.to_nat count -> length v = N.to_nat count ->
  exists r, averageSamples w v count lBegin lEnd = Done r.
Proof.
  apply averageSamples_total. exact lt_le.
Qed.

(** *** The bins lie in 400..700 *)

Lemma bin_bounds (i : N) :
  (i < 60)%N ->
  (400 <= bin_begin (F := Q) i)%Q /\
  (bin_begin (F := Q) i < bin_end (F := Q) i)%Q /\
  (bin_end (F := Q) i <= 700)%Q.
Proof.
  intros Hi. unfold bin_begin, bin_end, of_uint32, f1, SampleCount,
    WavelengthBegin, WavelengthEnd.
  rewrite U32_add_small by (unfold U32.modulus; lia).
  exact_ops. rewrite N2Z.inj_add, inject_Z_plus.
  change (inject_Z (Z.of_N 1)) with 1%Q.
  change (inject_Z (Z.of_N 400)) with 400%Q.
  change (inject_Z (Z.of_N 700)) with 700%Q.
  change (inject_Z (Z.of_N 60)) with 60%Q.
  change (inject_Z 1) with 1%Q.
  assert (0 <= inject_Z (Z.of_N i))%Q as Hlo.
  { change 0%Q with (inject_Z 0). rewrite <- Zle_Qle. lia. }
  assert (inject_Z (Z.of_N i) <= 59)%Q as Hhi.
  { change 59%Q with (inject_Z 59). rewrite <- Zle_Qle. lia. }
  set (x := inject_Z (Z.of_N i)) in *.
  assert (400 * (1 - x / 60) + 700 * (x / 60) == 400 + 5 * x)%Q as ->
    by field.
  assert (400 * (1 - (x + 1) / 60) + 700 * ((x + 1) / 60) == 405 + 5 * x)%Q
    as -> by field.
  repeat split; lra.
Qed.

(** ** The colour-matching singletons *)

Section Singletons.

Context {F : Type} {AF : Arith F}.
Variable cie : CIE.tables F.

Local Open Scope float_scope.

Lemma consistent_initial : consistent cie Statics.initial.
Proof. repeat split; intros ? H; discriminate H. Qed.

Lemma X_run (st : Statics.statics F) (sX : list F) :
  consistent cie st ->
  fromSamples (CIE.wavelengths cie) (CIE.x cie) CIE.sampleCount = Done sX ->
  exists st', X cie st = Done (sX, st') /\ consistent cie st'.
Proof.
  intros (Hx & Hy & Hz & Hv) HX. unfold X.
  destruct (Statics.x st) as [s|] eqn:E.
  - exists st. specialize (Hx s eq_refl). rewrite HX in Hx.
    injection Hx as ->. split; [reflexivity|]. repeat split; try assumption.
    intros s' Hs'. rewrite E in Hs'. injection Hs' as <-. exact HX.
  - rewrite HX. cbn [bind]. eexists. split; [reflexivity|].
    repeat split; cbn; try assumption.
    intros s Hs. injection Hs as <-. exact HX.
Qed.

Lemma Y_run (st : Statics.statics F) (sY : list F) :
  consistent cie st ->
  fromSamples (CIE.wavelengths cie) (CIE.y cie) CIE.sampleCount = Done sY ->
  exists st', Y cie st = Done (sY, st') /\ consistent cie st'.
Proof.
  intros (Hx & Hy & Hz & Hv) HY. unfold Y.
  destruct (Statics.y st) as [s|] eqn:E.
  - exists st. specialize (Hy s eq_refl). rewrite HY in Hy.
    injection Hy as ->. split; [reflexivity|]. repeat split; try assumption.
    intros s' Hs'. rewrite E in Hs'. injection Hs' as <-. exact HY.
  - rewrite HY. cbn [bind]. eexists. split; [reflexivity|].
    repeat split; cbn; try assumption.
    intros s Hs. injection Hs as <-. exact HY.
Qed.

Lemma Z_run (st : Statics.statics F) (sZ : list F) :
  consistent cie st ->
  fromSamples (CIE.wavelengths cie) (CIE.z cie) CIE.sampleCount = Done sZ ->
  exists st', Z cie st = Done (sZ, st') /\ consistent cie st'.
Proof.
  intros (Hx & Hy & Hz & Hv) HZ. unfold Z.
  destruct (Statics.z st) as [s|] eqn:E.
  - exists st. specialize (Hz s eq_refl). rewrite HZ in Hz.
    injection Hz as ->. split; [reflexivity|]. repeat split; try assumption.
    intros s' Hs'. rewrite E in Hs'. injection Hs' as <-. exact HZ.
  - rewrite HZ. cbn [bind]. eexists. split; [reflexivity|].
    repeat split; cbn; try assumption.
    intros s Hs. injection Hs as <-. exact HZ.
Qed.

Lemma skipn_cons_nth_error (l : list F) (n : nat) (x : F) :
  nth_error l n = Some x -> skipn n l = x :: skipn (S n) l.
Proof.
  revert n. induction l as [|h t IH]; intros [|n] H; cbn in H;
    try discriminate.
  - injection H as ->. reflexivity.
  - apply (IH n H).
Qed.

Lemma acquire_loop_eq fuel i result :
  acquire_loop cie fuel i result =
  (if (i <? CIE.sampleCount)%N then
    yi <- read (CIE.y cie) i ;;
    let result := result + yi in
    match fuel with
    | O => OutOfFuel
    | S fuel' => acquire_loop cie fuel' (U32.add i 1) result
    end
  else Done result).
Proof. destruct fuel; reflexivity. Qed.

(** The loop of [acquireIntegral] adds the entries from [i] on, in order. *)
Lemma acquire_loop_sum fuel :
  length (CIE.y cie) = N.to_nat CIE.sampleCount ->
  forall i result,
    (i <= CIE.sampleCount)%N ->
    (N.to_nat CIE.sampleCount <= fuel + N.to_nat i)%nat ->
    acquire_loop cie fuel i result
    = Done (fold_left fadd (skipn (N.to_nat i) (CIE.y cie)) result).
Proof.
  intros Hlen. unfold CIE.sampleCount in *.
  induction fuel as [|fuel IH]; intros i result Hi Hfuel;
    rewrite acquire_loop_eq; unfold CIE.sampleCount.
  - destruct (N.ltb_spec i 471) as [E|E]; [lia|].
    rewrite skipn_all2 by lia. reflexivity.
  - destruct (N.ltb_spec i 471) as [E|E].
    + destruct (nth_error (CIE.y cie) (N.to_nat i)) as [yi|] eqn:Hyi;
        [|apply nth_error_None in Hyi; lia].
      unfold read. rewrite Hyi. cbn [bind].
      rewrite U32_add_small by (unfold U32.modulus; lia).
      rewrite IH by lia.
      replace (N.to_nat (i + 1)) with (S (N.to_nat i)) by lia.
      rewrite (skipn_cons_nth_error _ _ _ Hyi). reflexivity.
    + rewrite skipn_all2 by lia. reflexivity.
Qed.

Lemma acquireIntegral_sum :
  length (CIE.y cie) = N.to_nat CIE.sampleCount ->
  acquireIntegral cie = Done (fold_left fadd (CIE.y cie) f0).
Proof.
  intros Hlen. unfold acquireIntegral.
  rewrite acquire_loop_sum by (assumption || lia). reflexivity.
Qed.

Lemma yIntegral_run (st : Statics.statics F) :
  length (CIE.y cie) = N.to_nat CIE.sampleCount ->
  consistent cie st ->
  exists st',
    yIntegral cie st = Done (fold_left fadd (CIE.y cie) f0, st') /\
    Statics.value st' = Some (fold_left fadd (CIE.y cie) f0) /\
    consistent cie st'.
Proof.
  intros Hlen (Hx & Hy & Hz & Hv). unfold yIntegral.
  pose proof (acquireIntegral_sum Hlen) as Hacq.
  destruct (Statics.value st) as [v|] eqn:E.
  - specialize (Hv v eq_refl). rewrite Hacq in Hv. injection Hv as <-.
    exists st. repeat split; try assumption.
    intros v' Hv'. rewrite E in Hv'. injection Hv' as <-. exact Hacq.
  - rewrite Hacq. cbn [bind]. eexists. split; [reflexivity|].
    repeat split; cbn; try assumption.
    intros v Hv'. injection Hv' as <-. exact Hacq.
Qed.

End Singletons.

(** ** Colour conversion in exact arithmetic *)

Section ExactColour.

Local Open Scope Q_scope.

Lemma accumulate_eq fuel (sX sY sZ samples : list Q) i (xyz : Q * Q * Q) :
  accumulate fuel sX sY sZ samples i xyz =
  (if (i <? SampleCount)%N then
    let '(x, y, z) := xyz in
    xi <- read sX i ;;
    si <- read samples i ;;
    let x := (x + xi * si)%fl in
    yi <- read sY i ;;
    si <- read samples i ;;
    let y := (y + yi * si)%fl in
    zi <- read sZ i ;;
    si <- read samples i ;;
    let z := (z + zi * si)%fl in
    match fuel with
    | O => OutOfFuel
    | S fuel' => accumulate fuel' sX sY sZ samples (U32.add i 1) (x, y, z)
    end
  else Done xyz).
Proof. destruct fuel; reflexivity. Qed.

Lemma weighted_step (s m : list Q) (i : nat) :
  (i < 60)%nat ->
  weighted s m i == nth i s 0 * nth i m 0 + weighted s m (S i).
Proof.
  intros Hi. unfold weighted.
  replace (60 - i)%nat with (S (60 - S i)) by lia.
  cbn [seq map]. rewrite Qsum_cons. reflexivity.
Qed.

Lemma accumulate_weighted (sX sY sZ samples : list Q) fuel :
  length sX = 60%nat -> length sY = 60%nat -> length sZ = 60%nat ->
  length samples = 60%nat ->
  forall (i : N) (x y z : Q),
    (i <= 60)%N -> (60 <= fuel + N.to_nat i)%nat ->
    exists x' y' z',
      accumulate fuel sX sY sZ samples i (x, y, z) = Done (x', y', z') /\
      x' == x + weighted samples sX (N.to_nat i) /\
      y' == y + weighted samples sY (N.to_nat i) /\
      z' == z + weighted samples sZ (N.to_nat i).
Proof.
  intros HX HY HZ Hs.
  induction fuel as [|fuel IH]; intros i x y z Hi Hfuel;
    rewrite accumulate_eq; unfold SampleCount.
  - destruct (N.ltb_spec i 60) as [E|E]; [lia|].
    exists x, y, z. split; [reflexivity|].
    replace (N.to_nat i) with 60%nat by lia.
    unfold weighted. cbn. repeat split; lra.
  - destruct (N.ltb_spec i 60) as [E|E].
    + rewrite (read_nth sX i 0), (read_nth sY i 0), (read_nth sZ i 0),
        (read_nth samples i 0) by lia.
      cbn [bind]. rewrite U32_add_small by (unfold U32.modulus; lia).
      destruct (IH (i + 1)%N
                  (x + nth (N.to_nat i) sX 0 * nth (N.to_nat i) samples 0)
                  (y + nth (N.to_nat i) sY 0 * nth (N.to_nat i) samples 0)
                  (z + nth (N.to_nat i) sZ 0 * nth (N.to_nat i) samples 0))
        as (x' & y' & z' & Hrun & Ex & Ey & Ez); [lia|lia|].
      exists x', y', z'. split; [exact Hrun|].
      replace (N.to_nat (i + 1)) with (S (N.to_nat i)) in * by lia.
      rewrite !(weighted_step samples _ (N.to_nat i)) by lia.
      repeat split; lra.
    + exists x, y, z. split; [reflexivity|].
      replace (N.to_nat i) with 60%nat by lia.
      unfold weighted. cbn. repeat split; lra.
Qed.

Lemma weighted_linear (s s1 s2 m : list Q) (p q : Q) :
  (forall k, (k < 60)%nat -> nth k s 0 == p * nth k s1 0 + q * nth k s2 0) ->
  weighted s m 0 == p * weighted s1 m 0 + q * weighted s2 m 0.
Proof.
  intros H. unfold weighted. apply Qsum_linear.
  intros k Hk. apply in_seq in Hk. rewrite H by lia. ring.
Qed.

Lemma weighted_zero (s m : list Q) :
  (forall k, (k < 60)%nat -> nth k s 0 == 0) -> weighted s m 0 == 0.
Proof.
  intros H. unfold weighted. apply Qsum_zero.
  intros k Hk. apply in_seq in Hk. rewrite H by lia. ring.
Qed.

Section Projection.

Variable cie : CIE.tables Q.
Hypothesis Hwl : length (CIE.wavelengths cie) = 471%nat.
Hypothesis Hinc : increasingb (CIE.wavelengths cie) = true.

Lemma singleton_built (column : list Q) :
  length column = 471%nat ->
  exists s,
    fromSamples (CIE.wavelengths cie) column CIE.sampleCount = Done s /\
    length s = 60%nat.
Proof.
  intros Hc.
  destruct (fromSamples_bins (CIE.wavelengths cie) column CIE.sampleCount
              exact_lt_le) as (s & Hs & Hlen & _); try assumption.
  - unfold CIE.sampleCount, U32.modulus. lia.
  - exists s. split; assumption.
Qed.

Hypothesis Hxl : length (CIE.x cie) = 471%nat.
Hypothesis Hyl : length (CIE.y cie) = 471%nat.
Hypothesis Hzl : length (CIE.z cie) = 471%nat.

Lemma toXYZ_run (samples sX sY sZ : list Q) (st : Statics.statics Q) :
  fromSamples (CIE.wavelengths cie) (CIE.x cie) CIE.sampleCount = Done sX ->
  fromSamples (CIE.wavelengths cie) (CIE.y cie) CIE.sampleCount = Done sY ->
  fromSamples (CIE.wavelengths cie) (CIE.z cie) CIE.sampleCount = Done sZ ->
  length samples = 60%nat ->
  consistent cie st ->
  exists xyz st',
    toXYZ cie samples st = Done (xyz, st') /\
    consistent cie st' /\
    a xyz == weighted samples sX 0 * scale cie /\
    b xyz == weighted samples sY 0 * scale cie /\
    c xyz == weighted samples sZ 0 * scale cie.
Proof.
  intros HX HY HZ Hs Hst.
  assert (forall column s,
            length column = 471%nat ->
            fromSamples (CIE.wavelengths cie) column CIE.sampleCount = Done s ->
            length s = 60%nat) as Hlen.
  { intros column s Hc Hrun.
    destruct (singleton_built column Hc) as (s' & Hs' & Hl). congruence. }
  destruct (X_run cie st sX Hst HX) as (st1 & H1 & Hst1).
  destruct (Y_run cie st1 sY Hst1 HY) as (st2 & H2 & Hst2).
  destruct (Z_run cie st2 sZ Hst2 HZ) as (st3 & H3 & Hst3).
  destruct (accumulate_weighted sX sY sZ samples (N.to_nat SampleCount)
              (Hlen _ _ Hxl HX) (Hlen _ _ Hyl HY) (Hlen _ _ Hzl HZ) Hs
              0%N 0 0 0) as (x & y & z & Hacc & Ex & Ey & Ez);
    [lia|unfold SampleCount; lia|].
  destruct (yIntegral_run cie st3 Hyl Hst3) as (st4 & H4 & _ & Hst4).
  exists (mkFloat3
            (x * ((700 - 400) / (60 * fold_left Qplus (CIE.y cie) 0)))
            (y * ((700 - 400) / (60 * fold_left Qplus (CIE.y cie) 0)))
            (z * ((700 - 400) / (60 * fold_left Qplus (CIE.y cie) 0)))), st4.
  split; [|split; [exact Hst4|]].
  - unfold toXYZ, bindM, liftM, retM. rewrite H1, H2, H3.
    change (@f0 Q exact) with 0 in *. rewrite Hacc. cbn [bind].
    rewrite H4. reflexivity.
  - cbn [a b c]. change (N.to_nat 0) with O in *. unfold scale.
    rewrite Ex, Ey, Ez. repeat split; ring.
Qed.

(** What [toRGB] makes of the result of [toXYZ]. *)
Lemma toRGB_run (samples : list Q) (st st' : Statics.statics Q)
    (xyz : Float3 Q) :
  toXYZ cie samples st = Done (xyz, st') ->
  exists rgb,
    toRGB cie samples st = Done (rgb, st') /\
    a rgb == 3.240479 * a xyz - 1.537150 * b xyz - 0.498535 * c xyz /\
    b rgb == - 0.969256 * a xyz + 1.875991 * b xyz + 0.041556 * c xyz /\
    c rgb == 0.055648 * a xyz - 0.204043 * b xyz + 1.057311 * c xyz.
Proof.
  intros Hrun. unfold toRGB, bindM, retM. rewrite Hrun.
  eexists. split; [reflexivity|]. cbn [a b c]. unfold lit. exact_ops.
  repeat split; field.
Qed.

End Projection.

End ExactColour.

(** ** The laws of the two arithmetics beyond the order *)

#[export] Instance exact_float_laws : FloatLaws Q.
Proof.
  split.
  - intros x y z H1 H2. exact_order. apply Qltb_lt. lra.
  - intros x y z H1 H2. exact_order. apply Qle_bool_iff. lra.
  - reflexivity.
  - intros x y. exact_ops. unfold Qmult.
    now rewrite Z.mul_comm, Pos.mul_comm.
Qed.

Lemma SFmul_comm (x y : spec_float) :
  SFmul Binary32.prec Binary32.emax x y
  = SFmul Binary32.prec Binary32.emax y x.
Proof.
  destruct x as [[|]|[|]| |[|] mx ex], y as [[|]|[|]| |[|] my ey];
    try reflexivity; cbn [SFmul xorb];
    now rewrite Pos.mul_comm, BinInt.Z.add_comm.
Qed.

#[export] Instance binary32_float_laws : FloatLaws spec_float.
Proof.
  split; cbn [fltb fleb fmul binary32].
  - intros x y z H1 H2.
    apply SFltb_key in H1 as (p & q & Hp & Hq & H1).
    apply SFleb_key in H2 as (q' & r & Hq' & Hr & H2).
    rewrite Hq in Hq'. injection Hq' as <-.
    apply SFltb_key. exists p, r. repeat split; try assumption.
    assert (~ (let '(q1, q2, q3) := q in
               let '(r1, r2, r3) := r in
               (r1 < q1 \/ (q1 = r1 /\ (r2 < q2 \/ (q2 = r2 /\ r3 < q3))))%Z))
      as H2' by (intros H; apply lex_Gt in H; contradiction).
    apply lex_Lt in H1. apply lex_Lt.
    destruct p as [[p1 p2] p3], q as [[q1 q2] q3], r as [[r1 r2] r3]. lia.
  - intros x y z H1 H2.
    apply SFleb_key in H1 as (p & q & Hp & Hq & H1).
    apply SFleb_key in H2 as (q' & r & Hq' & Hr & H2).
    rewrite Hq in Hq'. injection Hq' as <-.
    apply SFleb_key. exists p, r. repeat split; try assumption.
    assert (~ (let '(p1, p2, p3) := p in
               let '(q1, q2, q3) := q in
               (q1 < p1 \/ (p1 = q1 /\ (q2 < p2 \/ (p2 = q2 /\ q3 < p3))))%Z))
      as H1' by (intros H; apply lex_Gt in H; contradiction).
    assert (~ (let '(q1, q2, q3) := q in
               let '(r1, r2, r3) := r in
               (r1 < q1 \/ (q1 = r1 /\ (r2 < q2 \/ (q2 = r2 /\ r3 < q3))))%Z))
      as H2' by (intros H; apply lex_Gt in H; contradiction).
    intros H. apply lex_Gt in H.
    destruct p as [[p1 p2] p3], q as [[q1 q2] q3], r as [[r1 r2] r3]. lia.
  - reflexivity.
  - exact SFmul_comm.
Qed.

(** ** Rounding in binary32

    What is needed of [binary_round] to know the sign of a difference: a
    positive integer at an exponent of the format rounds to a positive
    float or to the positive infinity. *)

Section Binary32Rounding.

Local Open Scope Z_scope.

Local Abbreviation prec := Binary32.prec.
Local Abbreviation emax := Binary32.emax.
Local Abbreviation emin := (emin prec emax).
Local Abbreviation Z := BinNums.Z.

Lemma digits2_pos_bounds (m : positive) :
  2 ^ (Zpos (digits2_pos m) - 1) <= Zpos m < 2 ^ Zpos (digits2_pos m).
Proof.
  induction m as [m IH|m IH|]; cbn [digits2_pos].
  - rewrite Pos2Z.inj_succ.
    replace (Z.succ (Zpos (digits2_pos m)) - 1) with
      (Z.succ (Zpos (digits2_pos m) - 1)) by lia.
    rewrite !Z.pow_succ_r by lia. lia.
  - rewrite Pos2Z.inj_succ.
    replace (Z.succ (Zpos (digits2_pos m)) - 1) with
      (Z.succ (Zpos (digits2_pos m) - 1)) by lia.
    rewrite !Z.pow_succ_r by lia. lia.
  - cbn. lia.
Qed.

Lemma shr_1_m (r : shr_record) :
  0 <= shr_m r -> shr_m (shr_1 r) = shr_m r / 2.
Proof.
  destruct r as [m r s]. cbn [shr_m]. intros Hm.
  destruct m as [|[p|p|]|p]; cbn [shr_1 shr_m]; try lia;
    try reflexivity.
  - change (Z.pos p~1) with (2 * Z.pos p + 1).
    apply Z.div_unique with 1; lia.
  - change (Z.pos p~0) with (2 * Z.pos p).
    apply Z.div_unique with 0; lia.
Qed.

Lemma iter_shr_m (p : positive) (r : shr_record) :
  0 <= shr_m r -> shr_m (iter_pos shr_1 p r) = shr_m r / 2 ^ Zpos p.
Proof.
  revert r. induction p as [p IH|p IH|]; intros r Hr; cbn [iter_pos].
  - assert (0 <= shr_m (shr_1 r)) as H1.
    { rewrite shr_1_m by assumption. apply Z.div_pos; lia. }
    assert (0 <= shr_m (iter_pos shr_1 p (shr_1 r))) as H2.
    { rewrite IH by assumption. apply Z.div_pos; lia. }
    rewrite IH, IH, shr_1_m by assumption.
    rewrite !Z.div_div by lia. f_equal.
    change (Z.pos p~1) with (2 * Z.pos p + 1).
    replace (2 * Z.pos p + 1) with (1 + Z.pos p + Z.pos p) by lia.
    rewrite !Z.pow_add_r by lia. change (2 ^ 1) with 2. ring.
  - assert (0 <= shr_m (iter_pos shr_1 p r)) as H2.
    { rewrite IH by assumption. apply Z.div_pos; lia. }
    rewrite IH, IH by assumption.
    rewrite !Z.div_div by lia. f_equal.
    change (Z.pos p~0) with (2 * Z.pos p).
    replace (2 * Z.pos p) with (Z.pos p + Z.pos p) by lia.
    rewrite Z.pow_add_r by lia. reflexivity.
  - rewrite shr_1_m by assumption. reflexivity.
Qed.


Lemma shr_record_of_loc_m (m : Z) (l : location) :
  shr_m (shr_record_of_loc m l) = m.
Proof. destruct l as [|[| |]]; reflexivity. Qed.

(** Shifting to the exponent of the format keeps a positive mantissa
    positive: fewer bits are dropped than the mantissa has. *)
Lemma shr_fexp_pos (m e : Z) (l : location) :
  0 < m -> emin <= e ->
  0 < shr_m (fst (shr_fexp prec emax m e l)) /\
  emin <= snd (shr_fexp prec emax m e l).
Proof.
  intros Hm He. unfold shr_fexp, shr.
  destruct m as [|p|p]; try lia. cbn [Zdigits2].
  pose proof (digits2_pos_bounds p) as [Hlo _].
  set (d := Z.pos (digits2_pos p)) in *.
  assert (0 < d) as Hd by (unfold d; lia).
  destruct (fexp prec emax (d + e) - e) as [|n|n] eqn:En; cbn [fst snd].
  - rewrite shr_record_of_loc_m. lia.
  - unfold fexp, emin, Binary32.prec, Binary32.emax in *.
    rewrite iter_shr_m by (rewrite shr_record_of_loc_m; lia).
    rewrite shr_record_of_loc_m. split; [|lia].
    apply Z.div_str_pos. split; [lia|].
    apply Z.le_trans with (2 ^ (d - 1)); [|exact Hlo].
    apply Z.pow_le_mono_r; lia.
  - rewrite shr_record_of_loc_m. lia.
Qed.

Lemma round_nearest_even_ge (m : Z) (l : location) :
  m <= round_nearest_even m l.
Proof.
  destruct l as [|[| |]]; cbn [round_nearest_even]; try lia.
  destruct (Z.even m); lia.
Qed.

Lemma binary_round_aux_pos (m e : Z) (l : location) :
  0 < m -> emin <= e ->
  positive32 (binary_round_aux prec emax false m e l) = true.
Proof.
  intros Hm He. unfold binary_round_aux.
  pose proof (shr_fexp_pos m e l Hm He) as [H1 H2].
  destruct (shr_fexp prec emax m e l) as [mrs' e'] eqn:E1.
  cbn [fst snd] in H1, H2.
  pose proof (round_nearest_even_ge (shr_m mrs') (loc_of_shr_record mrs'))
    as Hr.
  set (m' := round_nearest_even (shr_m mrs') (loc_of_shr_record mrs')) in *.
  pose proof (shr_fexp_pos m' e' loc_Exact ltac:(lia) H2) as [H3 _].
  destruct (shr_fexp prec emax m' e' loc_Exact) as [mrs'' e''].
  cbn [fst] in H3.
  destruct (shr_m mrs'') as [|q|q]; try lia.
  destruct (e'' <=? emax - prec); reflexivity.
Qed.

Lemma binary_round_pos (m : positive) (e : Z) :
  emin <= e -> positive32 (binary_round prec emax false m e) = true.
Proof.
  intros He. unfold binary_round, shl_align.
  assert (emin <= fexp prec emax (Z.pos (digits2_pos m) + e)) as Hf
    by (unfold fexp; lia).
  destruct (fexp prec emax (Z.pos (digits2_pos m) + e) - e);
    apply binary_round_aux_pos; lia.
Qed.


Lemma iter_xO (m d : positive) :
  Z.pos (Pos.iter xO m d) = Z.pos m * 2 ^ Z.pos d.
Proof.
  induction d as [|d IH] using Pos.peano_ind.
  - cbn [Pos.iter]. change (2 ^ 1) with 2. lia.
  - rewrite Pos.iter_succ, Pos2Z.inj_succ, Z.pow_succ_r by lia.
    change (Z.pos (Pos.iter xO m d)~0) with (2 * Z.pos (Pos.iter xO m d)).
    rewrite IH. ring.
Qed.

Lemma shl_align_fst (m : positive) (e e' : Z) :
  e' <= e -> Z.pos (fst (shl_align m e e')) = Z.pos m * 2 ^ (e - e').
Proof.
  intros He. unfold shl_align.
  destruct (e' - e) as [|d|d] eqn:Ed; cbn [fst]; try lia.
  - replace (e - e') with 0 by lia. change (2 ^ 0) with 1. lia.
  - rewrite iter_xO. f_equal. f_equal. lia.
Qed.

(** What [valid_binary] says of a finite binary32 datum. *)
Lemma valid_finite (s : bool) (m : positive) (e : Z) :
  is_binary32 (S754_finite s m e) = true ->
  emin <= e /\ Z.pos (digits2_pos m) <= prec /\
  (emin < e -> Z.pos (digits2_pos m) = prec).
Proof.
  unfold is_binary32, valid_binary, bounded, canonical_mantissa, fexp.
  intros H. apply andb_true_iff in H as [H _]. apply Z.eqb_eq in H. lia.
Qed.

(** Two finite data of the format, brought to their common exponent, compare
    as their exponents and mantissas do. *)
Lemma aligned_lt (s s' : bool) (mx my : positive) (ex ey ez : Z) :
  is_binary32 (S754_finite s mx ex) = true ->
  is_binary32 (S754_finite s' my ey) = true ->
  ez = Z.min ex ey ->
  ex < ey \/ (ex = ey /\ Z.pos mx < Z.pos my) ->
  Z.pos (fst (shl_align mx ex ez)) < Z.pos (fst (shl_align my ey ez)).
Proof.
  intros Vx Vy -> Hlt.
  apply valid_finite in Vx as (Hx1 & Hx2 & Hx3).
  apply valid_finite in Vy as (Hy1 & Hy2 & Hy3).
  rewrite !shl_align_fst by lia.
  destruct Hlt as [Hlt|[-> Hlt]].
  - replace (Z.min ex ey) with ex by lia.
    replace (ex - ex) with 0 by lia. change (2 ^ 0) with 1.
    pose proof (digits2_pos_bounds mx) as [_ Hmx].
    pose proof (digits2_pos_bounds my) as [Hmy _].
    rewrite Hy3 in Hmy by lia.
    assert (2 ^ Z.pos (digits2_pos mx) <= 2 ^ prec) as Hp
      by (apply Z.pow_le_mono_r; lia).
    assert (2 ^ 1 <= 2 ^ (ey - ex)) as Hq
      by (apply Z.pow_le_mono_r; lia).
    change (2 ^ 1) with 2 in Hq.
    change (2 ^ prec) with 16777216 in Hp.
    change (2 ^ (prec - 1)) with 8388608 in Hmy.
    nia.
  - replace (Z.min ey ey) with ey by lia.
    replace (ey - ey) with 0 by lia. change (2 ^ 0) with 1. lia.
Qed.

(** The difference of two data of the format, the smaller taken from the
    larger, is strictly positive: it may be rounded, it may be infinite, it
    is never zero and never NaN. *)
Lemma SFsub_pos (x y : spec_float) :
  is_binary32 x = true -> is_binary32 y = true ->
  SFltb x y = true ->
  positive32 (SFsub prec emax y x) = true.
Proof.
  intros Vx Vy Hlt.
  destruct x as [[|]|[|]| |[|] mx ex], y as [[|]|[|]| |[|] my ey];
    try discriminate Hlt; try reflexivity.
  - (* both negative *)
    unfold SFltb in Hlt. cbn [SFcompare] in Hlt.
    assert (Z.pos (fst (shl_align my ey (Z.min ey ex)))
            < Z.pos (fst (shl_align mx ex (Z.min ey ex)))) as Hd.
    { apply (aligned_lt true true my mx ey ex); [assumption..|reflexivity|].
      destruct (Z.compare_spec ex ey) as [E|E|E]; try discriminate Hlt.
      - right. split; [lia|].
        change (Pos.compare_cont Eq mx my) with (mx ?= my)%positive in Hlt.
        destruct (Pos.compare_spec mx my); try discriminate Hlt. lia.
      - left. lia. }
    unfold SFsub. cbv zeta. cbn [cond_Zopp].
    destruct (- Z.pos (fst (shl_align my ey (Z.min ey ex)))
              - - Z.pos (fst (shl_align mx ex (Z.min ey ex))))
      as [|d|d] eqn:Ed; try lia.
    cbn [binary_normalize]. apply binary_round_pos.
    apply valid_finite in Vx, Vy. lia.
  - (* negative below positive *)
    unfold SFsub. cbv zeta. cbn [cond_Zopp].
    destruct (Z.pos (fst (shl_align my ey (Z.min ey ex)))
              - - Z.pos (fst (shl_align mx ex (Z.min ey ex))))
      as [|d|d] eqn:Ed; try lia.
    cbn [binary_normalize]. apply binary_round_pos.
    apply valid_finite in Vx, Vy. lia.
  - (* both positive *)
    unfold SFltb in Hlt. cbn [SFcompare] in Hlt.
    assert (Z.pos (fst (shl_align mx ex (Z.min ey ex)))
            < Z.pos (fst (shl_align my ey (Z.min ey ex)))) as Hd.
    { apply (aligned_lt false false mx my ex ey); [assumption..|lia|].
      destruct (Z.compare_spec ex ey) as [E|E|E]; try discriminate Hlt.
      - right. split; [lia|].
        change (Pos.compare_cont Eq mx my) with (mx ?= my)%positive in Hlt.
        destruct (Pos.compare_spec mx my); try discriminate Hlt. lia.
      - left. lia. }
    unfold SFsub. cbv zeta. cbn [cond_Zopp].
    destruct (Z.pos (fst (shl_align my ey (Z.min ey ex)))
              - Z.pos (fst (shl_align mx ex (Z.min ey ex))))
      as [|d|d] eqn:Ed; try lia.
    cbn [binary_normalize]. apply binary_round_pos.
    apply valid_finite in Vx, Vy. lia.
Qed.

End Binary32Rounding.


(** ** The segment loop adds trapezoids *)

Section TrapezoidWalk.

Context {F : Type} {AF : Arith F} {OL : OrderLaws F} {FL : FloatLaws F}.

Local Open Scope float_scope.

Variables (w v : list F) (count : N) (lBegin lEnd : F).
Hypothesis Hc : (2 <= count < U32.modulus)%N.
Hypothesis Hw : length w = N.to_nat count.
Hypothesis Hv : length v = N.to_nat count.

Lemma interpolate_interpolant (l : F) (i : N) :
  (i + 1 < count)%N ->
  interpolate w v l i = Done (interpolant w v (N.to_nat i) l).
Proof.
  intros Hi. unfold interpolate, interpolant.
  rewrite U32_add_small by lia.
  rewrite (read_nth w i f0), (read_nth w (i + 1) f0),
    (read_nth v i f0), (read_nth v (i + 1) f0) by lia.
  cbn [bind]. replace (N.to_nat (i + 1)) with (S (N.to_nat i)) by lia.
  reflexivity.
Qed.

(** The segment loop adds one trapezoid for each segment from the cursor on,
    as long as the segment begins at or before [lEnd]. *)
Lemma segments_fold fuel :
  forall (i : N) (result : F),
    (i < count)%N -> (N.to_nat count <= fuel + N.to_nat i + 1)%nat ->
    exists e : nat,
      (N.to_nat i <= e < N.to_nat count)%nat /\
      segments fuel w v count lBegin lEnd i result
      = Done (fold_left (fun acc k => acc + trapezoid w v lBegin lEnd k)
                (seq (N.to_nat i) (e - N.to_nat i)) result) /\
      (forall k, (N.to_nat i <= k < e)%nat -> (nth k w f0 <=? lEnd) = true) /\
      ((e + 1 < N.to_nat count)%nat -> (nth e w f0 <=? lEnd) = false).
Proof.
  induction fuel as [|fuel IH]; intros i result Hi Hfuel;
    rewrite segments_eq, U32_add_small by lia.
  - destruct (N.ltb_spec (i + 1) count) as [E|E]; [lia|].
    exists (N.to_nat i). rewrite Nat.sub_diag.
    split; [lia|]. split; [reflexivity|]. split; intros; lia.
  - destruct (N.ltb_spec (i + 1) count) as [E|E].
    + rewrite (read_nth w i f0), (read_nth w (i + 1) f0) by lia.
      cbn [bind].
      destruct (lEnd >=? nth (N.to_nat i) w f0) eqn:T.
      * rewrite !interpolate_interpolant by lia. cbn [bind].
        destruct (IH (i + 1)%N
                    (result
                     + fhalf
                       * (interpolant w v (N.to_nat i)
                            (fmax lBegin (nth (N.to_nat i) w f0))
                          + interpolant w v (N.to_nat i)
                              (fmin lEnd (nth (N.to_nat (i + 1)) w f0)))
                       * (fmin lEnd (nth (N.to_nat (i + 1)) w f0)
                          - fmax lBegin (nth (N.to_nat i) w f0))))
          as (e & He & Hrun & Hin & Hout); [lia|lia|].
        exists e. split; [lia|]. split; [|split].
        -- rewrite Hrun.
           replace (N.to_nat (i + 1)) with (S (N.to_nat i)) by lia.
           replace (e - N.to_nat i)%nat with (S (e - S (N.to_nat i)))
             by lia.
           reflexivity.
        -- intros k Hk.
           destruct (Nat.eq_dec k (N.to_nat i)) as [->|Hne];
             [exact T|apply Hin; lia].
        -- exact Hout.
      * exists (N.to_nat i). rewrite Nat.sub_diag.
        split; [lia|]. split; [reflexivity|].
        split; [intros; lia|]. intros _. exact T.
    + exists (N.to_nat i). rewrite Nat.sub_diag.
      split; [lia|]. split; [reflexivity|]. split; intros; lia.
Qed.

End TrapezoidWalk.

Lemma filter_none {A : Type} (f : A -> bool) (l : list A) :
  (forall x, In x l -> f x = false) -> filter f l = [].
Proof.
  induction l as [|x l IH]; intros H; [reflexivity|]. cbn [filter].
  rewrite (H x) by now left. apply IH. intros y Hy. apply H. now right.
Qed.

Lemma filter_all {A : Type} (f : A -> bool) (l : list A) :
  (forall x, In x l -> f x = true) -> filter f l = l.
Proof.
  induction l as [|x l IH]; intros H; [reflexivity|]. cbn [filter].
  rewrite (H x) by now left. f_equal. apply IH. intros y Hy. apply H.
  now right.
Qed.

(** A predicate that holds on [[j, e)] and nowhere else below [n] selects
    that window. *)
Lemma filter_window (f : nat -> bool) (j e n : nat) :
  (j <= e <= n)%nat ->
  (forall k, (k < j)%nat -> f k = false) ->
  (forall k, (j <= k < e)%nat -> f k = true) ->
  (forall k, (e <= k < n)%nat -> f k = false) ->
  filter f (seq 0 n) = seq j (e - j).
Proof.
  intros H Hbelow Hin Habove.
  replace n with (j + ((e - j) + (n - e)))%nat by lia.
  rewrite seq_app, seq_app, !filter_app. cbn [Nat.add].
  rewrite (filter_none f (seq 0 j)), (filter_all f (seq j (e - j))),
    (filter_none f (seq (j + (e - j)) (n - e))).
  - rewrite app_nil_r. reflexivity.
  - intros k Hk. apply in_seq in Hk. apply Habove. lia.
  - intros k Hk. apply in_seq in Hk. apply Hin. lia.
  - intros k Hk. apply in_seq in Hk. apply Hbelow. lia.
Qed.

Section TrapezoidAverage.

Context {F : Type} {AF : Arith F} {OL : OrderLaws F} {FL : FloatLaws F}.

Local Open Scope float_scope.

(** Past the two clamping tests [averageSamples] is the trapezoid sum over
    the segments that meet the interval, times [1 / (lEnd - lBegin)]. *)
Lemma averageSamples_trapezoid_average (w v : list F) (count : N)
    (lBegin lEnd : F) :
  (2 <= count < U32.modulus)%N ->
  length w = N.to_nat count -> length v = N.to_nat count ->
  increasingb w = true ->
  (lEnd <=? nth 0 w f0) = false ->
  (lBegin >=? nth (N.to_nat count - 1) w f0) = false ->
  averageSamples w v count lBegin lEnd
  = Done (trapezoid_average w v lBegin lEnd).
Proof.
  intros Hc Hw Hv Hinc T0 Tl. unfold averageSamples.
  destruct (N.ltb_spec 0 count) as [_|?]; [|lia]. cbn [assert bind].
  destruct (N.eqb_spec count 1) as [?|_]; [lia|].
  rewrite U32_sub_small by lia.
  rewrite (read_nth w 0 f0), (read_nth w (count - 1) f0) by lia.
  cbn [bind]. change (N.to_nat 0) with O.
  replace (N.to_nat (count - 1)) with (N.to_nat count - 1)%nat by lia.
  rewrite T0, Tl.
  assert ((if lEnd >? nth (N.to_nat count - 1) w f0
           then (if lBegin <? nth 0 w f0 then f0 + f0 else f0) + f0
           else (if lBegin <? nth 0 w f0 then f0 + f0 else f0)) = f0 :> F)
    as ->.
  { destruct (lBegin <? nth 0 w f0), (lEnd >? nth (N.to_nat count - 1) w f0);
      rewrite ?zero_plus_zero; reflexivity. }
  destruct (advance_stops w count lBegin lt_le (proj2 Hc) Hw)
    with (fuel := N.to_nat count) (i := 0%N)
    as (j & Hj & _ & Hjc & Hstop & Hskip); try lia.
  { intros x Hx. rewrite (read_nth w (count - 1) f0) in Hx by lia.
    injection Hx as <-.
    replace (N.to_nat (count - 1)) with (N.to_nat count - 1)%nat by lia.
    exact Tl. }
  rewrite Hj. cbn [bind].
  destruct (segments_fold w v count lBegin lEnd Hc Hw Hv (N.to_nat count)
              j f0) as (e & He & Hrun & Hin & Hout); [lia|lia|].
  rewrite Hrun. cbn [bind]. unfold trapezoid_average, trapezoid_sum.
  rewrite (filter_window (overlapped w lBegin lEnd) (N.to_nat j) e);
    [reflexivity|lia|..].
  - intros k Hk. unfold overlapped.
    rewrite (Hskip (N.of_nat k) (nth (S k) w f0)); [reflexivity|lia|].
    rewrite (read_nth w _ f0) by lia. do 2 f_equal. lia.
  - intros k Hk. unfold overlapped. rewrite (Hin k Hk), andb_true_r.
    assert ((lBegin >? nth (S (N.to_nat j)) w f0) = false) as Hsj.
    { apply (Hstop (nth (S (N.to_nat j)) w f0)).
      rewrite (read_nth w _ f0) by lia. do 2 f_equal. lia. }
    destruct (Nat.eq_dec k (N.to_nat j)) as [->|Hne];
      [rewrite Hsj; reflexivity|].
    destruct (nth (S k) w f0 <? lBegin) eqn:Tk; [|reflexivity].
    rewrite (lt_trans (nth (S (N.to_nat j)) w f0) (nth (S k) w f0) lBegin)
      in Hsj; [discriminate| |exact Tk].
    apply increasingb_lt; [assumption|lia].
  - intros k Hk. unfold overlapped.
    assert ((nth e w f0 <=? lEnd) = false) as He' by (apply Hout; lia).
    destruct (nth k w f0 <=? lEnd) eqn:Tk; [|apply andb_false_r].
    destruct (Nat.eq_dec k e) as [->|Hne]; [congruence|].
    rewrite (lt_le (nth e w f0) lEnd) in He'; [discriminate|].
    apply lt_le_trans with (nth k w f0); [|exact Tk].
    apply increasingb_lt; [assumption|lia].
Qed.

End TrapezoidAverage.


(** In exact arithmetic the trapezoid average is the integral of the
    interpolant over the covered part of the interval, divided by the whole
    width. *)
Remark trapezoid_average_integral (w v : list Q) (count : N)
    (lBegin lEnd : Q) :
  (2 <= count < U32.modulus)%N ->
  length w = N.to_nat count -> length v = N.to_nat count ->
  increasingb w = true ->
  (lBegin < lEnd)%Q ->
  (nth 0 w 0 < lEnd)%Q -> (lBegin < nth (N.to_nat count - 1) w 0)%Q ->
  (trapezoid_average w v lBegin lEnd
   == integral w v (Qmax lBegin (nth 0 w 0))
        (Qmin lEnd (nth (N.to_nat count - 1) w 0))
      / (lEnd - lBegin))%Q.
Proof.
  intros Hc Hw Hv Hinc Hint H0 Hl.
  destruct (averageSamples_integral w v count lBegin lEnd Hc Hw Hv Hinc Hint
              H0 Hl) as (r & Hr & Er).
  rewrite (averageSamples_trapezoid_average w v count lBegin lEnd Hc Hw Hv
             Hinc) in Hr.
  - injection Hr as <-. exact Er.
  - apply Qle_bool_gt. exact H0.
  - apply Qle_bool_gt. exact Hl.
Qed.


(** ** The two clamping returns *)

Section Clamps.

Context {F : Type} {AF : Arith F}.

Local Open Scope float_scope.

Variables (w v : list F) (count : N).
Hypothesis Hcount : (0 < count < U32.modulus)%N.
Hypothesis Hw : length w = N.to_nat count.
Hypothesis Hv : length v = N.to_nat count.

(** The two clamping returns. *)
Lemma averageSamples_left (lBegin lEnd : F) :
  (lEnd <=? nth 0 w f0) = true ->
  averageSamples w v count lBegin lEnd = Done (nth 0 v f0).
Proof.
  intros H. unfold averageSamples.
  destruct (N.ltb_spec 0 count) as [_|?]; [|lia]. cbn [assert bind].
  rewrite (read_nth v 0 f0) by lia. change (N.to_nat 0) with O.
  destruct (count =? 1)%N; [reflexivity|].
  rewrite (read_nth w 0 f0) by lia. cbn [bind]. change (N.to_nat 0) with O.
  rewrite H. reflexivity.
Qed.

Context {OL : OrderLaws F}.
Hypothesis Hinc : increasingb w = true.

Lemma averageSamples_right (lBegin lEnd : F) :
  (lBegin <? lEnd) = true ->
  (lBegin >=? nth (N.to_nat count - 1) w f0) = true ->
  averageSamples w v count lBegin lEnd = Done (nth (N.to_nat count - 1) v f0).
Proof.
  intros Hint H. unfold averageSamples.
  destruct (N.ltb_spec 0 count) as [_|?]; [|lia]. cbn [assert bind].
  destruct (N.eqb_spec count 1) as [E1|E1].
  { rewrite (read_nth v 0 f0) by lia. subst count. reflexivity. }
  rewrite (read_nth w 0 f0) by lia. cbn [bind]. change (N.to_nat 0) with O.
  assert ((nth 0 w f0 <? nth (N.to_nat count - 1) w f0) = true) as H0l
    by (apply increasingb_lt; [assumption|lia]).
  assert ((nth 0 w f0 <? lEnd) = true) as H0e.
  { apply lt_trans with (nth (N.to_nat count - 1) w f0); [assumption|].
    now apply le_lt_trans with lBegin. }
  rewrite (lt_not_ge _ _ H0e).
  rewrite U32_sub_small by lia.
  rewrite (read_nth w (count - 1) f0), (read_nth v (count - 1) f0) by lia.
  cbn [bind].
  replace (N.to_nat (count - 1)) with (N.to_nat count - 1)%nat by lia.
  rewrite H. reflexivity.
Qed.

End Clamps.


(** ** The bins on the machine *)

Lemma below_60 (P : N -> Prop) :
  (forall k, In k (seq 0 60) -> P (N.of_nat k)) ->
  forall i, (i < 60)%N -> P i.
Proof.
  intros H i Hi. rewrite <- (N2Nat.id i). apply H. apply in_seq. lia.
Qed.

(** The bounds of the bins on the machine: each bin begins below its end,
    ends above 400 and begins below 700. *)
Lemma bins_binary32 (i : N) :
  (i < 60)%N ->
  (bin_begin (AF := binary32) i <? bin_end i)%fl = true /\
  (of_uint32 (AF := binary32) WavelengthBegin <? bin_end i)%fl = true /\
  (bin_begin (AF := binary32) i <? of_uint32 WavelengthEnd)%fl = true.
Proof.
  revert i. apply below_60. intros k Hk.
  assert (forallb
            (fun k =>
               (bin_begin (AF := binary32) (N.of_nat k)
                <? bin_end (N.of_nat k))%fl
               && (of_uint32 (AF := binary32) WavelengthBegin
                   <? bin_end (N.of_nat k))%fl
               && (bin_begin (AF := binary32) (N.of_nat k)
                   <? of_uint32 WavelengthEnd)%fl) (seq 0 60) = true)
    as Hall by (vm_compute; reflexivity).
  rewrite forallb_forall in Hall. specialize (Hall k Hk).
  apply andb_true_iff in Hall as [Hall H3].
  apply andb_true_iff in Hall as [H1 H2]. auto.
Qed.


Lemma get_read {F : Type} {AF : Arith F} (s : list F) (i : N) :
  (i < 60)%N -> get s i = read s i.
Proof.
  intros Hi. unfold get, SampleCount.
  destruct (N.ltb_spec i 60) as [_|?]; [reflexivity|lia].
Qed.


(** ** Colour conversion in any arithmetic *)

Section GenericColour.

Context {F : Type} {AF : Arith F}.

Local Open Scope float_scope.

Lemma accumulate_step fuel (sX sY sZ samples : list F) i (xyz : F * F * F) :
  accumulate fuel sX sY sZ samples i xyz =
  (if (i <? SampleCount)%N then
    let '(x, y, z) := xyz in
    xi <- read sX i ;;
    si <- read samples i ;;
    let x := x + xi * si in
    yi <- read sY i ;;
    si <- read samples i ;;
    let y := y + yi * si in
    zi <- read sZ i ;;
    si <- read samples i ;;
    let z := z + zi * si in
    match fuel with
    | O => OutOfFuel
    | S fuel' => accumulate fuel' sX sY sZ samples (U32.add i 1) (x, y, z)
    end
  else Done xyz).
Proof. destruct fuel; reflexivity. Qed.

Lemma accumulate_channels (sX sY sZ samples : list F) fuel :
  length sX = 60%nat -> length sY = 60%nat -> length sZ = 60%nat ->
  length samples = 60%nat ->
  forall (i : N) (x y z : F),
    (i <= 60)%N -> (60 <= fuel + N.to_nat i)%nat ->
    accumulate fuel sX sY sZ samples i (x, y, z)
    = Done (channel sX samples (N.to_nat i) x,
            channel sY samples (N.to_nat i) y,
            channel sZ samples (N.to_nat i) z).
Proof.
  intros HX HY HZ Hs.
  induction fuel as [|fuel IH]; intros i x y z Hi Hfuel;
    rewrite accumulate_step; unfold SampleCount, channel.
  - destruct (N.ltb_spec i 60) as [E|E]; [lia|].
    replace (60 - N.to_nat i)%nat with O by lia. reflexivity.
  - destruct (N.ltb_spec i 60) as [E|E].
    + rewrite (read_nth sX i f0), (read_nth sY i f0), (read_nth sZ i f0),
        (read_nth samples i f0) by lia.
      cbn [bind]. rewrite U32_add_small by (unfold U32.modulus; lia).
      rewrite IH by lia. unfold channel.
      replace (N.to_nat (i + 1)) with (S (N.to_nat i)) by lia.
      replace (60 - N.to_nat i)%nat with (S (60 - S (N.to_nat i))) by lia.
      reflexivity.
    + replace (60 - N.to_nat i)%nat with O by lia. reflexivity.
Qed.

Context {OL : OrderLaws F}.

Variable cie : CIE.tables F.
Hypothesis Hwl : length (CIE.wavelengths cie) = 471%nat.
Hypothesis Hinc : increasingb (CIE.wavelengths cie) = true.

Lemma singleton_exists (column : list F) :
  length column = 471%nat ->
  exists s,
    fromSamples (CIE.wavelengths cie) column CIE.sampleCount = Done s /\
    length s = 60%nat.
Proof.
  intros Hc.
  destruct (fromSamples_bins (CIE.wavelengths cie) column CIE.sampleCount
              lt_le) as (s & Hs & Hlen & _); try assumption.
  - unfold CIE.sampleCount, U32.modulus. lia.
  - exists s. split; assumption.
Qed.

Hypothesis Hxl : length (CIE.x cie) = 471%nat.
Hypothesis Hyl : length (CIE.y cie) = 471%nat.
Hypothesis Hzl : length (CIE.z cie) = 471%nat.

(** [toXYZ], run from any state the statics can be in. *)
Lemma toXYZ_channels (samples : list F) (st : Statics.statics F) :
  length samples = 60%nat ->
  consistent cie st ->
  exists sX sY sZ st',
    fromSamples (CIE.wavelengths cie) (CIE.x cie) CIE.sampleCount = Done sX /\
    fromSamples (CIE.wavelengths cie) (CIE.y cie) CIE.sampleCount = Done sY /\
    fromSamples (CIE.wavelengths cie) (CIE.z cie) CIE.sampleCount = Done sZ /\
    consistent cie st' /\
    let scale :=
      (of_uint32 WavelengthEnd - of_uint32 WavelengthBegin)
      / (of_uint32 SampleCount * fold_left fadd (CIE.y cie) f0) in
    toXYZ cie samples st
    = Done (mkFloat3 (channel sX samples 0 f0 * scale)
              (channel sY samples 0 f0 * scale)
              (channel sZ samples 0 f0 * scale), st').
Proof.
  intros Hs Hst.
  destruct (singleton_exists (CIE.x cie) Hxl) as (sX & HX & HXl).
  destruct (singleton_exists (CIE.y cie) Hyl) as (sY & HY & HYl).
  destruct (singleton_exists (CIE.z cie) Hzl) as (sZ & HZ & HZl).
  destruct (X_run cie st sX Hst HX) as (st1 & H1 & Hst1).
  destruct (Y_run cie st1 sY Hst1 HY) as (st2 & H2 & Hst2).
  destruct (Z_run cie st2 sZ Hst2 HZ) as (st3 & H3 & Hst3).
  destruct (yIntegral_run cie st3 Hyl Hst3) as (st4 & H4 & _ & Hst4).
  exists sX, sY, sZ, st4. do 4 (split; [assumption|]).
  cbv zeta. unfold toXYZ, bindM, liftM, retM. rewrite H1, H2, H3.
  rewrite (accumulate_channels sX sY sZ samples (N.to_nat SampleCount)
             HXl HYl HZl Hs 0%N) by (unfold SampleCount; lia).
  cbn [bind]. rewrite H4. reflexivity.
Qed.

End GenericColour.

Lemma channel_dot {F : Type} {AF : Arith F} {FL : FloatLaws F}
    (m s : list F) :
  channel m s 0 f0 = dot s m.
Proof.
  unfold channel, dot. change (60 - 0)%nat with 60%nat.
  assert (forall l acc,
            fold_left (fun acc k => (acc + nth k m f0 * nth k s f0)%fl) l acc
            = fold_left (fun acc i => (acc + nth i s f0 * nth i m f0)%fl) l
                acc) as H.
  { intros l. induction l as [|k l IH]; intros acc; [reflexivity|].
    cbn [fold_left]. rewrite (mul_comm (nth k m f0)). apply IH. }
  apply H.
Qed.

(** The zero spectrum in binary32: every product is a zero and the sums
    stay at [+0]. *)
Lemma channel_zero (m : list spec_float) (l : list nat) :
  (forall k, is_finite (nth k m f0) = true) ->
  fold_left (fun acc k => (acc + nth k m f0 * nth k (make f0) f0)%fl)
    l (S754_zero false) = S754_zero false.
Proof.
  intros Hm. induction l as [|k l IH]; [reflexivity|].
  cbn [fold_left].
  assert (nth k (make (f0 (F := spec_float))) f0 = S754_zero false) as ->.
  { unfold make. apply nth_repeat. }
  specialize (Hm k).
  destruct (nth k m f0) as [[|]|[|]| |[|] mk ek]; try discriminate Hm;
    exact IH.
Qed.

Lemma zero_times (x : spec_float) :
  is_finite x = true ->
  is_zero (SFmul Binary32.prec Binary32.emax (S754_zero false) x) = true.
Proof. destruct x as [[|]|[|]| |[|] m e]; try discriminate; reflexivity. Qed.

Lemma finite_nth (l : list spec_float) :
  forallb is_finite l = true ->
  forall i, is_finite (nth i l f0) = true.
Proof.
  intros H i. destruct (nth_in_or_default i l f0) as [Hin|Hd].
  - rewrite forallb_forall in H. now apply H.
  - rewrite Hd. reflexivity.
Qed.

(** The entries of the matrix of [toRGB]: each literal of the source, read
    as [lit n 1000000], is a positive binary32 number within half a unit in
    the last place of the decimal [n / 1000000]. *)
Remark matrix_literals_nearest :
  forallb
    (fun n =>
       match lit (AF := binary32) n 1000000 with
       | S754_finite false m e =>
           let x := value (S754_finite false m e) in
           Qle_bool ((x - (n # 1000000)) * 2) (2 ^ e)
           && Qle_bool (((n # 1000000) - x) * 2) (2 ^ e)
       | _ => false
       end)
    [3240479; 1537150; 498535; 969256; 1875991; 41556; 55648; 204043;
     1057311]%Z
  = true.
Proof. vm_compute. reflexivity. Qed.

(** ** The idealised arithmetic

    What the float expressions of the code are the rounding of.  These are
    statements about [exact], not about the machine. *)

(** Over the rationals a constant table that covers 400..700 is resampled
    to the constant. *)
Remark fromSamples_constant_exact (w v : list Q) (count : N) (c : Q) :
  (0 < count < U32.modulus)%N ->
  length w = N.to_nat count -> length v = N.to_nat count ->
  increasingb w = true ->
  (forall k, (k < length v)%nat -> nth k v 0 == c)%Q ->
  (nth 0 w 0 <= 400)%Q -> (700 <= nth (N.to_nat count - 1) w 0)%Q ->
  exists s,
    fromSamples w v count = Done s /\
    forall i, (i < 60)%N -> exists x, get s i = Done x /\ (x == c)%Q.
Proof.
  intros Hc Hw Hv Hinc Hconst H0 Hl.
  destruct (fromSamples_bins w v count exact_lt_le Hc Hw Hv Hinc)
    as (s & Hs & _ & Hbins).
  exists s. split; [exact Hs|].
  intros i Hi. destruct (Hbins i Hi) as (r & Hr & Hread).
  exists r. split.
  { unfold get, SampleCount.
    destruct (N.ltb_spec i 60) as [_|?]; [exact Hread|lia]. }
  destruct (bin_bounds i Hi) as (Hb1 & Hb2 & Hb3).
  assert (2 <= count)%N as Hc2.
  { destruct (N.eq_dec count 1) as [->|?]; [|lia].
    change (N.to_nat 1 - 1)%nat with O in Hl. lra. }
  destruct (averageSamples_integral w v count (bin_begin i) (bin_end i))
    as (r' & Hr' & Er'); try assumption; try lia; try lra.
  rewrite Hr in Hr'. injection Hr' as <-.
  rewrite Er'.
  set (lo := Qmax (bin_begin i) (nth 0 w 0)).
  set (hi := Qmin (bin_end i) (nth (N.to_nat count - 1) w 0)).
  assert (lo == bin_begin i)%Q as Elo.
  { unfold lo. destruct (Q.max_spec (bin_begin i) (nth 0 w 0))
      as [[? E]|[? E]]; lra. }
  assert (hi == bin_end i)%Q as Ehi.
  { unfold hi.
    destruct (Q.min_spec (bin_end i) (nth (N.to_nat count - 1) w 0))
      as [[? E]|[? E]]; lra. }
  rewrite (integral_constant w v c).
  - rewrite Elo, Ehi. field. lra.
  - congruence.
  - assumption.
  - assumption.
  - lia.
  - lra.
  - lra.
  - rewrite Hw. lra.
Qed.

(** Over the rationals [toRGB] is linear in the spectrum. *)
Remark toRGB_linear_exact (cie : CIE.tables Q) (s s1 s2 : list Q) (p q : Q)
    (st st1 st2 : Statics.statics Q) :
  length (CIE.wavelengths cie) = 471%nat ->
  length (CIE.x cie) = 471%nat ->
  length (CIE.y cie) = 471%nat ->
  length (CIE.z cie) = 471%nat ->
  increasingb (CIE.wavelengths cie) = true ->
  ~ (fold_left Qplus (CIE.y cie) 0 == 0)%Q ->
  length s = 60%nat -> length s1 = 60%nat -> length s2 = 60%nat ->
  consistent cie st -> consistent cie st1 -> consistent cie st2 ->
  (forall i, (i < 60)%nat ->
     nth i s 0 == p * nth i s1 0 + q * nth i s2 0)%Q ->
  exists rgb rgb1 rgb2 xyz st' st1' st2',
    toRGB cie s st = Done (rgb, st') /\
    toRGB cie s1 st1 = Done (rgb1, st1') /\
    toRGB cie s2 st2 = Done (rgb2, st2') /\
    (a rgb == p * a rgb1 + q * a rgb2)%Q /\
    (b rgb == p * b rgb1 + q * b rgb2)%Q /\
    (c rgb == p * c rgb1 + q * c rgb2)%Q /\
    toXYZ cie s st = Done (xyz, st') /\
    (a rgb == 3.240479 * a xyz - 1.537150 * b xyz - 0.498535 * c xyz)%Q /\
    (b rgb == - 0.969256 * a xyz + 1.875991 * b xyz + 0.041556 * c xyz)%Q /\
    (c rgb == 0.055648 * a xyz - 0.204043 * b xyz + 1.057311 * c xyz)%Q.
Proof.
  intros Hwl Hxl Hyl Hzl Hinc _ Hs Hs1 Hs2 Hst Hst1 Hst2 Hlin.
  destruct (singleton_built cie Hwl Hinc (CIE.x cie) Hxl) as (sX & HX & _).
  destruct (singleton_built cie Hwl Hinc (CIE.y cie) Hyl) as (sY & HY & _).
  destruct (singleton_built cie Hwl Hinc (CIE.z cie) Hzl) as (sZ & HZ & _).
  destruct (toXYZ_run cie Hwl Hinc Hxl Hyl Hzl s sX sY sZ st HX HY HZ Hs Hst)
    as (xyz & st' & Hrun & _ & Ea & Eb & Ec).
  destruct (toXYZ_run cie Hwl Hinc Hxl Hyl Hzl s1 sX sY sZ st1 HX HY HZ Hs1
              Hst1) as (xyz1 & st1' & Hrun1 & _ & Ea1 & Eb1 & Ec1).
  destruct (toXYZ_run cie Hwl Hinc Hxl Hyl Hzl s2 sX sY sZ st2 HX HY HZ Hs2
              Hst2) as (xyz2 & st2' & Hrun2 & _ & Ea2 & Eb2 & Ec2).
  destruct (toRGB_run cie s st st' xyz Hrun) as (rgb & Hrgb & Ra & Rb & Rc).
  destruct (toRGB_run cie s1 st1 st1' xyz1 Hrun1)
    as (rgb1 & Hrgb1 & Ra1 & Rb1 & Rc1).
  destruct (toRGB_run cie s2 st2 st2' xyz2 Hrun2)
    as (rgb2 & Hrgb2 & Ra2 & Rb2 & Rc2).
  exists rgb, rgb1, rgb2, xyz, st', st1', st2'.
  do 3 (split; [assumption|]).
  assert (a xyz == p * a xyz1 + q * a xyz2)%Q as La.
  { rewrite Ea, Ea1, Ea2, (weighted_linear s s1 s2 sX p q Hlin). ring. }
  assert (b xyz == p * b xyz1 + q * b xyz2)%Q as Lb.
  { rewrite Eb, Eb1, Eb2, (weighted_linear s s1 s2 sY p q Hlin). ring. }
  assert (c xyz == p * c xyz1 + q * c xyz2)%Q as Lc.
  { rewrite Ec, Ec1, Ec2, (weighted_linear s s1 s2 sZ p q Hlin). ring. }
  split; [rewrite Ra, Ra1, Ra2, La, Lb, Lc; ring|].
  split; [rewrite Rb, Rb1, Rb2, La, Lb, Lc; ring|].
  split; [rewrite Rc, Rc1, Rc2, La, Lb, Lc; ring|].
  split; [exact Hrun|]. split; [exact Ra|]. split; [exact Rb|exact Rc].
Qed.

(** * The claims *)

(** C1 (amended). On a table of at least two strictly increasing
    wavelengths and a query interval [lBegin < lEnd] that overlaps the
    covered range (it ends after the first wavelength and begins before the
    last), [averageSamples] returns the trapezoid average, computed in the
    arithmetic of the code: the trapezoids
    [0.5 * (f(l0) + f(l1)) * (l1 - l0)] of the segments that meet the
    interval, with [l0 = max(lBegin, w[k])], [l1 = min(lEnd, w[k+1])] and
    [f] the interpolant of segment [k], added from 0 in increasing order of
    the segments, times [1 / (lEnd - lBegin)].  Nothing is added for the
    part of the interval outside the covered range, and the divisor is the
    whole width.  Every arithmetic with the laws of binary32, binary32
    included.  (In exact arithmetic this value is the integral of the
    piecewise-linear interpolant over the covered part of the interval,
    divided by the width: [trapezoid_average_integral].) *)
Theorem averageSamples_trapezoids {F : Type} {AF : Arith F}
    {OL : OrderLaws F} {FL : FloatLaws F}
    (w v : list F) (count : N) (lBegin lEnd : F) :
  (2 <= count < U32.modulus)%N ->
  length w = N.to_nat count -> length v = N.to_nat count ->
  increasingb w = true ->
  (lBegin <? lEnd)%fl = true ->
  (nth 0 w f0 <? lEnd)%fl = true ->
  (lBegin <? nth (N.to_nat count - 1) w f0)%fl = true ->
  averageSamples w v count lBegin lEnd
  = Done (trapezoid_average w v lBegin lEnd).
Proof.
  intros Hc Hw Hv Hinc _ H0 Hl.
  exact (averageSamples_trapezoid_average w v count lBegin lEnd Hc Hw Hv
           Hinc (lt_not_ge _ _ H0) (lt_not_ge _ _ Hl)).
Qed.

Lemma averageSamples_trapezoids_witness :
  let w := map Binary32.of_Z [400; 500; 700]%Z in
  let v := map Binary32.of_Z [2; 4; 0]%Z in
  averageSamples (AF := binary32) w v 3
    (Binary32.of_Z 350) (Binary32.of_Z 600)
  = Done (trapezoid_average w v (Binary32.of_Z 350) (Binary32.of_Z 600)).
Proof.
  cbv zeta.
  apply (averageSamples_trapezoids (F := spec_float)); try reflexivity.
  vm_compute. split; congruence.
Defined.

(** Counterexample to C1 as it stands, the integral read as a number.
    The constant table 3e38 at 400 and 700, averaged over [[500, 600)],
    gives the infinity (the sum of the two interpolated values overflows)
    where the integral over the width is 3e38.  And the constant 0.1f at 390
    and 710, averaged over bin 9, [[445, 450)], gives a float whose value is
    not the integral over the width, which is the value of 0.1f. *)
Lemma averageSamples_integrates_refuted :
  let huge := Binary32.of_Z 300000000000000000000000000000000000000 in
  let tenth := lit (AF := binary32) 1 10 in
  averageSamples (AF := binary32) (map Binary32.of_Z [400; 700]%Z)
    [huge; huge] 2 (Binary32.of_Z 500) (Binary32.of_Z 600)
  = Done (S754_infinity false) /\
  ~ returns_integral (map Binary32.of_Z [400; 700]%Z) [huge; huge] 2
      (Binary32.of_Z 500) (Binary32.of_Z 600) /\
  ~ returns_integral (map Binary32.of_Z [390; 710]%Z) [tenth; tenth] 2
      (bin_begin 9) (bin_end 9).
Proof.
  cbv zeta. split; [vm_compute; reflexivity|]. split.
  - intros (r & Hr & Hf & _). vm_compute in Hr. injection Hr as <-.
    discriminate Hf.
  - intros (r & Hr & _ & Hv). vm_compute in Hr. injection Hr as <-.
    vm_compute in Hv. discriminate Hv.
Qed.

(** C2. On a table with at least one entry and strictly increasing
    wavelengths, [fromSamples] returns a spectrum whose bin [i], for every
    [i < N], is what [averageSamples] returns on
    [lerp(i/N)] and [lerp((i+1)/N)], with [N = 60] and the range 400..700.
    Any arithmetic. *)
Theorem fromSamples_averages {F : Type} {AF : Arith F} {OL : OrderLaws F}
    (w v : list F) (count : N) :
  (0 < count < U32.modulus)%N ->
  length w = N.to_nat count -> length v = N.to_nat count ->
  increasingb w = true ->
  exists s,
    fromSamples w v count = Done s /\
    forall i, (i < 60)%N ->
      exists r,
        averageSamples w v count
          (lerp (of_uint32 i / of_uint32 60)%fl)
          (lerp (of_uint32 (i + 1) / of_uint32 60)%fl) = Done r /\
        get s i = Done r.
Proof.
  intros Hc Hw Hv Hinc.
  destruct (fromSamples_bins w v count lt_le Hc Hw Hv Hinc)
    as (s & Hs & _ & Hbins).
  exists s. split; [exact Hs|].
  intros i Hi. destruct (Hbins i Hi) as (r & Hr & Hread).
  exists r. split.
  - unfold bin_begin, bin_end in Hr.
    rewrite U32_add_small in Hr by (unfold U32.modulus; lia).
    exact Hr.
  - unfold get, SampleCount.
    destruct (N.ltb_spec i 60) as [_|?]; [exact Hread|lia].
Qed.

Lemma fromSamples_averages_witness :
  exists s,
    fromSamples (AF := binary32)
      (map Binary32.of_Z [400; 700]%Z) (map Binary32.of_Z [1; 3]%Z) 2
    = Done s /\
    forall i, (i < 60)%N ->
      exists r,
        averageSamples
          (map Binary32.of_Z [400; 700]%Z) (map Binary32.of_Z [1; 3]%Z) 2
          (lerp (of_uint32 i / of_uint32 60)%fl)
          (lerp (of_uint32 (i + 1) / of_uint32 60)%fl) = Done r /\
        get s i = Done r.
Proof.
  apply (fromSamples_averages (F := spec_float)); try reflexivity.
  vm_compute. split; congruence.
Defined.

(** C3. [toXYZ] of a spectrum [s] is the triple of the sums
    [sum_i s[i]*Xbar[i]], [sum_i s[i]*Ybar[i]], [sum_i s[i]*Zbar[i]], each
    times the scale [(WavelengthEnd - WavelengthBegin) / (N * YIntegral)],
    with [Xbar], [Ybar], [Zbar] the three singletons and [YIntegral] what
    [yIntegral] returns.  Sums, products and quotient are those of binary32,
    the products added from 0 in the order of the bins.  [toXYZ] of the
    all-zero spectrum is (0, 0, 0), each component a zero, when the bins of
    the singletons and the scale are numbers (no infinity, no NaN).  The
    table is any table of the declared size with increasing wavelengths. *)
Theorem toXYZ_projects (cie : CIE.tables spec_float) (s : list spec_float)
    (st : Statics.statics spec_float) :
  length (CIE.wavelengths cie) = 471%nat ->
  length (CIE.x cie) = 471%nat ->
  length (CIE.y cie) = 471%nat ->
  length (CIE.z cie) = 471%nat ->
  increasingb (CIE.wavelengths cie) = true ->
  length s = 60%nat ->
  consistent cie st ->
  exists Xbar Ybar Zbar YIntegral,
    (exists st', X cie st = Done (Xbar, st')) /\
    (exists st', Y cie st = Done (Ybar, st')) /\
    (exists st', Z cie st = Done (Zbar, st')) /\
    (exists st', yIntegral cie st = Done (YIntegral, st')) /\
    let scale :=
      ((of_uint32 WavelengthEnd - of_uint32 WavelengthBegin)
       / (of_uint32 SampleCount * YIntegral))%fl in
    (exists st',
       toXYZ cie s st
       = Done (mkFloat3 (dot s Xbar * scale)%fl (dot s Ybar * scale)%fl
                 (dot s Zbar * scale)%fl, st')) /\
    ((forall i, is_finite (nth i Xbar f0) = true) ->
     (forall i, is_finite (nth i Ybar f0) = true) ->
     (forall i, is_finite (nth i Zbar f0) = true) ->
     is_finite scale = true ->
     exists xyz st',
       toXYZ cie (make f0) st = Done (xyz, st') /\
       is_zero (a xyz) = true /\ is_zero (b xyz) = true /\
       is_zero (c xyz) = true).
Proof.
  intros Hwl Hxl Hyl Hzl Hinc Hs Hst.
  destruct (toXYZ_channels cie Hwl Hinc Hxl Hyl Hzl s st Hs Hst)
    as (sX & sY & sZ & st' & HX & HY & HZ & _ & Hrun).
  destruct (toXYZ_channels cie Hwl Hinc Hxl Hyl Hzl (make f0) st
              (repeat_length _ _) Hst)
    as (sX' & sY' & sZ' & st0 & HX' & HY' & HZ' & _ & Hrun0).
  rewrite HX in HX'. injection HX' as <-.
  rewrite HY in HY'. injection HY' as <-.
  rewrite HZ in HZ'. injection HZ' as <-.
  exists sX, sY, sZ, (fold_left fadd (CIE.y cie) f0).
  split; [destruct (X_run cie st sX Hst HX) as (? & H & _); eauto|].
  split; [destruct (Y_run cie st sY Hst HY) as (? & H & _); eauto|].
  split; [destruct (Z_run cie st sZ Hst HZ) as (? & H & _); eauto|].
  split; [destruct (yIntegral_run cie st Hyl Hst) as (? & H & _); eauto|].
  cbv zeta in *. split.
  - exists st'. rewrite Hrun, !channel_dot. reflexivity.
  - intros FX FY FZ Fs. eexists. exists st0. split; [exact Hrun0|].
    cbn [a b c]. unfold channel.
    change (f0 (F := spec_float)) with (S754_zero false) at 2 5 8.
    rewrite !channel_zero by assumption.
    repeat split; apply zero_times; exact Fs.
Qed.

Lemma toXYZ_projects_witness :
  exists Xbar Ybar Zbar YIntegral,
    (exists st', X test_tables Statics.initial = Done (Xbar, st')) /\
    (exists st', Y test_tables Statics.initial = Done (Ybar, st')) /\
    (exists st', Z test_tables Statics.initial = Done (Zbar, st')) /\
    (exists st',
       yIntegral test_tables Statics.initial = Done (YIntegral, st')) /\
    let scale :=
      ((of_uint32 WavelengthEnd - of_uint32 WavelengthBegin)
       / (of_uint32 SampleCount * YIntegral))%fl in
    (exists st',
       toXYZ test_tables (make (Binary32.of_Z 1)) Statics.initial
       = Done (mkFloat3 (dot (make (Binary32.of_Z 1)) Xbar * scale)%fl
                 (dot (make (Binary32.of_Z 1)) Ybar * scale)%fl
                 (dot (make (Binary32.of_Z 1)) Zbar * scale)%fl, st')) /\
    (exists xyz st',
       toXYZ test_tables (make f0) Statics.initial = Done (xyz, st') /\
       is_zero (a xyz) = true /\ is_zero (b xyz) = true /\
       is_zero (c xyz) = true).
Proof.
  destruct (toXYZ_projects test_tables (make (Binary32.of_Z 1))
              Statics.initial)
    as (Xbar & Ybar & Zbar & YIntegral & HX & HY & HZ & HI & Hsum & Hzero);
    [reflexivity|reflexivity|reflexivity|reflexivity|vm_compute; reflexivity
    |reflexivity|apply consistent_initial|].
  exists Xbar, Ybar, Zbar, YIntegral.
  do 4 (split; [assumption|]). split; [exact Hsum|].
  apply Hzero.
  - destruct HX as [st' HX]. vm_compute in HX. injection HX as <- _.
    apply finite_nth. vm_compute. reflexivity.
  - destruct HY as [st' HY]. vm_compute in HY. injection HY as <- _.
    apply finite_nth. vm_compute. reflexivity.
  - destruct HZ as [st' HZ]. vm_compute in HZ. injection HZ as <- _.
    apply finite_nth. vm_compute. reflexivity.
  - destruct HI as [st' HI]. vm_compute in HI. injection HI as <- _.
    vm_compute. reflexivity.
Defined.

(** C4. On a table with at least one entry and strictly increasing
    wavelengths, a query interval [lBegin < lEnd] that ends at or before the
    first wavelength gets [values[0]], and one that begins at or after the
    last wavelength gets [values[count-1]]: the edge values, never an
    extrapolation. Any arithmetic. *)
Theorem averageSamples_clamps {F : Type} {AF : Arith F} {OL : OrderLaws F}
    (w v : list F) (count : N) (lBegin lEnd d : F) :
  (0 < count < U32.modulus)%N ->
  length w = N.to_nat count -> length v = N.to_nat count ->
  increasingb w = true ->
  (lBegin <? lEnd)%fl = true ->
  ((lEnd <=? nth 0 w d)%fl = true ->
   averageSamples w v count lBegin lEnd = Done (nth 0 v d)) /\
  ((lBegin >=? nth (N.to_nat count - 1) w d)%fl = true ->
   averageSamples w v count lBegin lEnd
   = Done (nth (N.to_nat count - 1) v d)).
Proof.
  intros Hc Hw Hv Hinc Hint.
  unfold averageSamples.
  destruct (N.ltb_spec 0 count) as [_|?]; [|lia]. cbn [assert bind].
  destruct (N.eqb_spec count 1) as [E1|E1].
  { subst count. change (N.to_nat 1 - 1)%nat with O.
    rewrite (read_nth v 0 d) by (rewrite Hv; cbn; lia).
    split; reflexivity. }
  rewrite (read_nth w 0 d), (read_nth v 0 d) by lia. cbn [bind].
  change (N.to_nat 0) with O.
  split; intros H.
  - rewrite H. reflexivity.
  - assert ((nth 0 w d <? nth (N.to_nat count - 1) w d)%fl = true) as H0l
      by (apply increasingb_lt; [assumption|lia]).
    assert ((nth 0 w d <? lEnd)%fl = true) as H0e.
    { apply lt_trans with (nth (N.to_nat count - 1) w d); [assumption|].
      now apply le_lt_trans with lBegin. }
    rewrite (lt_not_ge _ _ H0e).
    rewrite U32_sub_small by lia.
    rewrite (read_nth w (count - 1) d), (read_nth v (count - 1) d) by lia.
    cbn [bind].
    replace (N.to_nat (count - 1)) with (N.to_nat count - 1)%nat by lia.
    rewrite H. reflexivity.
Qed.

Lemma averageSamples_clamps_witness :
  averageSamples (AF := binary32)
    (map Binary32.of_Z [400; 500; 700]%Z) (map Binary32.of_Z [2; 4; 9]%Z) 3
    (Binary32.of_Z 300) (Binary32.of_Z 350) = Done (Binary32.of_Z 2) /\
  averageSamples (AF := binary32)
    (map Binary32.of_Z [400; 500; 700]%Z) (map Binary32.of_Z [2; 4; 9]%Z) 3
    (Binary32.of_Z 700) (Binary32.of_Z 800) = Done (Binary32.of_Z 9).
Proof.
  split.
  - apply (averageSamples_clamps (F := spec_float)
             (map Binary32.of_Z [400; 500; 700]%Z)
             (map Binary32.of_Z [2; 4; 9]%Z) 3
             (Binary32.of_Z 300) (Binary32.of_Z 350) (Binary32.of_Z 0));
      try reflexivity.
    vm_compute. split; congruence.
  - apply (averageSamples_clamps (F := spec_float)
             (map Binary32.of_Z [400; 500; 700]%Z)
             (map Binary32.of_Z [2; 4; 9]%Z) 3
             (Binary32.of_Z 700) (Binary32.of_Z 800) (Binary32.of_Z 0));
      try reflexivity.
    vm_compute. split; congruence.
Defined.

(** C5. With [count == 1], [averageSamples] returns [values[0]] for every
    wavelength array and every pair of interval bounds. Any arithmetic. *)
Theorem averageSamples_single {F : Type} {AF : Arith F}
    (w : list F) (x : F) (rest : list F) (lBegin lEnd : F) :
  averageSamples w (x :: rest) 1 lBegin lEnd = Done x.
Proof. reflexivity. Qed.

(** C6. The ramp: wavelengths [500, 600], values [0, 100], query interval
    [500, 600) gives 50, the trapezoid average; in binary32 the result is
    the float 50.0 itself, in exact arithmetic the number 50. *)
Theorem averageSamples_ramp :
  averageSamples (AF := binary32)
    (map Binary32.of_Z [500; 600]%Z) (map Binary32.of_Z [0; 100]%Z) 2
    (Binary32.of_Z 500) (Binary32.of_Z 600) = Done (Binary32.of_Z 50) /\
  exists r,
    averageSamples [500; 600]%Q [0; 100]%Q 2 (500)%Q (600)%Q = Done r /\
    (r == 50)%Q.
Proof.
  split.
  - vm_compute. reflexivity.
  - eexists. split; [vm_compute; reflexivity|reflexivity].
Qed.







(** C9. [yIntegral] returns the plain sum of the 471 entries of [CIE::y],
    added in order from 0: no division, and the resampled spectrum [Y] plays
    no part. Every call, from any state the statics can be in, returns this
    value; after a call the value is cached and a further call leaves the
    statics as they are. Any arithmetic. *)
Theorem yIntegral_plain_sum {F : Type} {AF : Arith F} (cie : CIE.tables F)
    (st : Statics.statics F) :
  length (CIE.y cie) = 471%nat ->
  consistent cie st ->
  exists st',
    yIntegral cie st = Done (fold_left fadd (CIE.y cie) f0, st') /\
    Statics.value st' = Some (fold_left fadd (CIE.y cie) f0) /\
    Statics.y st' = Statics.y st /\
    consistent cie st' /\
    yIntegral cie st' = Done (fold_left fadd (CIE.y cie) f0, st').
Proof.
  intros Hlen Hst.
  destruct (yIntegral_run cie st Hlen Hst) as (st' & Hrun & Hval & Hst').
  exists st'. split; [exact Hrun|]. split; [exact Hval|].
  split; [|split; [exact Hst'|]].
  - unfold yIntegral in Hrun.
    destruct (Statics.value st) eqn:E.
    + injection Hrun as _ <-. reflexivity.
    + rewrite (acquireIntegral_sum cie Hlen) in Hrun. cbn [bind] in Hrun.
      injection Hrun as <-. reflexivity.
  - unfold yIntegral. rewrite Hval. reflexivity.
Qed.

Lemma yIntegral_plain_sum_witness :
  exists st',
    yIntegral (AF := binary32) test_tables Statics.initial
    = Done (fold_left fadd (CIE.y test_tables) f0, st') /\
    Statics.value st' = Some (fold_left fadd (CIE.y test_tables) f0) /\
    Statics.y st' = Statics.y Statics.initial /\
    consistent test_tables st' /\
    yIntegral test_tables st'
    = Done (fold_left fadd (CIE.y test_tables) f0, st').
Proof.
  apply yIntegral_plain_sum; [reflexivity|apply consistent_initial].
Defined.

(** C10. With at least one entry, strictly increasing wavelengths and
    [lBegin < lEnd], every array access of [averageSamples] is inside
    [[0, count)]: the function returns a value (a read outside the table
    would fault); when the clamping tests fail the cursor loop stops at an
    [i] with [i + 1 <= count - 1]; and every divisor
    [wavelengths[i+1] - wavelengths[i]] with [i + 1 < count], the float
    difference that [interpolate] computes, is strictly positive.  Binary32,
    the wavelengths any data of the format (infinities included; a NaN is
    not below or above anything, so no increasing table holds one). *)
Theorem averageSamples_in_bounds (w v : list spec_float) (count : N)
    (lBegin lEnd : spec_float) :
  (0 < count < U32.modulus)%N ->
  length w = N.to_nat count -> length v = N.to_nat count ->
  Forall (fun x => is_binary32 x = true) w ->
  increasingb w = true ->
  (lBegin <? lEnd)%fl = true ->
  (exists r, averageSamples w v count lBegin lEnd = Done r) /\
  ((2 <= count)%N ->
   (lBegin >=? nth (N.to_nat count - 1) w f0)%fl = false ->
   exists i,
     advance (N.to_nat count) w lBegin 0 = Done i /\
     (i + 1 <= count - 1)%N) /\
  (forall i, (i + 1 < count)%N ->
     (f0 <? nth (N.to_nat (i + 1)) w f0 - nth (N.to_nat i) w f0)%fl = true).
Proof.
  intros Hc Hw Hv Hvalid Hinc Hint. repeat split.
  - apply averageSamples_total; [exact lt_le|assumption..].
  - intros Hc2 Hl.
    destruct (advance_stops w count lBegin lt_le (proj2 Hc) Hw)
      with (fuel := N.to_nat count) (i := 0%N) as (j & Hj & _ & Hjc & _);
      try lia.
    + intros wl Hwl. rewrite (read_nth w (count - 1) f0) in Hwl by lia.
      injection Hwl as <-.
      replace (N.to_nat (count - 1)) with (N.to_nat count - 1)%nat by lia.
      exact Hl.
    + exists j. split; [exact Hj|lia].
  - intros i Hi.
    replace (N.to_nat (i + 1)) with (S (N.to_nat i)) by lia.
    pose proof (proj1 (Forall_nth _ w) Hvalid) as Hnth.
    apply SFsub_pos; [apply Hnth; lia..|].
    apply (increasingb_step w f0 (N.to_nat i) Hinc). lia.
Qed.

Lemma averageSamples_in_bounds_witness :
  let w := map Binary32.of_Z [400; 500; 700]%Z in
  let v := map Binary32.of_Z [2; 4; 9]%Z in
  (exists r,
     averageSamples w v 3 (Binary32.of_Z 650) (Binary32.of_Z 800) = Done r) /\
  ((2 <= 3)%N ->
   (Binary32.of_Z 650 >=? nth (N.to_nat 3 - 1) w f0)%fl = false ->
   exists i,
     advance (N.to_nat 3) w (Binary32.of_Z 650) 0 = Done i /\
     (i + 1 <= 3 - 1)%N) /\
  (forall i, (i + 1 < 3)%N ->
     (f0 <? nth (N.to_nat (i + 1)) w f0 - nth (N.to_nat i) w f0)%fl = true).
Proof.
  cbv zeta. apply averageSamples_in_bounds; try reflexivity.
  - vm_compute. split; congruence.
  - repeat constructor.
Defined.

(** * Further properties of the code *)

(** ** The sample container *)

(** X1. A spectrum built by the fill constructor reads back the fill value at
    every index below 60, and the checked index operator refuses every other
    index. Any arithmetic. *)
Theorem make_get {F : Type} {AF : Arith F} (val : F) (i : N) :
  get (make val) i = if (i <? 60)%N then Done val else Fault.
Proof.
  unfold get, make, SampleCount.
  destruct (N.ltb_spec i 60) as [Hi|Hi]; [|reflexivity].
  cbn [assert bind]. rewrite (read_nth _ i val) by (rewrite repeat_length; lia).
  rewrite nth_repeat. reflexivity.
Qed.

(** X2. Writing bin [i] of a spectrum and reading it back gives the written
    value, leaves every other bin and the size as they were; an index of 60
    or more is refused by the write and by the read. Any arithmetic. *)
Theorem set_get {F : Type} {AF : Arith F} (s : list F) (i : N) (x : F) :
  length s = 60%nat ->
  ((i < 60)%N ->
   exists s',
     set s i x = Done s' /\ length s' = 60%nat /\
     get s' i = Done x /\
     forall j, j <> i -> get s' j = get s j) /\
  ((60 <= i)%N -> set s i x = Fault /\ get s i = Fault).
Proof.
  intros Hlen. split; intros Hi.
  - unfold set, get, SampleCount.
    destruct (N.ltb_spec i 60) as [_|?]; [|lia]. cbn [assert bind].
    destruct (read_in s i) as [old ->]; [lia|]. cbn [bind].
    eexists. split; [reflexivity|].
    split; [rewrite update_length; exact Hlen|].
    split.
    + unfold read. rewrite update_same by lia. reflexivity.
    + intros j Hj. destruct (N.ltb_spec j 60); [|reflexivity].
      cbn [assert bind]. unfold read. rewrite update_other by lia.
      reflexivity.
  - unfold set, get, SampleCount.
    destruct (N.ltb_spec i 60) as [?|_]; [lia|]. split; reflexivity.
Qed.

Lemma set_get_witness :
  ((7 < 60)%N ->
   exists s',
     set (make (Binary32.of_Z 0)) 7 (Binary32.of_Z 3) = Done s' /\
     length s' = 60%nat /\
     get s' 7 = Done (Binary32.of_Z 3) /\
     forall j, j <> 7%N -> get s' j = get (make (Binary32.of_Z 0)) j) /\
  ((60 <= 7)%N ->
   set (make (Binary32.of_Z 0)) 7 (Binary32.of_Z 3) = Fault /\
   get (make (Binary32.of_Z 0)) 7 = Fault).
Proof.
  apply (set_get (F := spec_float)). reflexivity.
Defined.

(** ** fromSamples: which tables it accepts *)

Lemma check_increasing_decides {F : Type} {AF : Arith F} (w : list F)
    (count : N) (fuel : nat) :
  (count < U32.modulus)%N -> length w = N.to_nat count ->
  forall i, (i < count)%N -> (N.to_nat count <= fuel + N.to_nat i + 1)%nat ->
  check_increasing fuel w count i
  = if increasingb (skipn (N.to_nat i) w) then Done tt else Fault.
Proof.
  intros Hc Hw. induction fuel as [|fuel IH]; intros i Hi Hfuel;
    rewrite check_increasing_eq, U32_add_small by lia.
  - destruct (N.ltb_spec (i + 1) count) as [E|E]; [lia|].
    destruct (skipn (N.to_nat i) w) as [|x [|y t]] eqn:Hs; try reflexivity.
    apply (f_equal (@length F)) in Hs. rewrite length_skipn in Hs.
    cbn [length] in Hs. lia.
  - destruct (N.ltb_spec (i + 1) count) as [E|E].
    + destruct (nth_error w (N.to_nat i)) as [wi|] eqn:Hwi;
        [|apply nth_error_None in Hwi; lia].
      destruct (nth_error w (N.to_nat (i + 1))) as [wi1|] eqn:Hwi1;
        [|apply nth_error_None in Hwi1; lia].
      unfold read. rewrite Hwi, Hwi1. cbn [bind].
      rewrite (skipn_cons_nth_error _ _ _ Hwi).
      replace (S (N.to_nat i)) with (N.to_nat (i + 1)) by lia.
      rewrite IH by lia.
      rewrite (skipn_cons_nth_error _ _ _ Hwi1).
      cbn [increasingb]. destruct (wi <? wi1)%fl; reflexivity.
    + destruct (skipn (N.to_nat i) w) as [|x [|y t]] eqn:Hs; try reflexivity.
      apply (f_equal (@length F)) in Hs. rewrite length_skipn in Hs.
      cbn [length] in Hs. lia.
Qed.

(** X3. On a table of [count >= 1] entries [fromSamples] returns a spectrum,
    of 60 bins, exactly when the wavelengths are strictly increasing;
    otherwise an assertion fails. Any arithmetic with the order laws. *)
Theorem fromSamples_accepts {F : Type} {AF : Arith F} {OL : OrderLaws F}
    (w v : list F) (count : N) :
  (0 < count < U32.modulus)%N ->
  length w = N.to_nat count -> length v = N.to_nat count ->
  (increasingb w = true ->
   exists s, fromSamples w v count = Done s /\ length s = 60%nat) /\
  (increasingb w = false -> fromSamples w v count = Fault).
Proof.
  intros Hc Hw Hv. split; intros Hinc.
  - destruct (fromSamples_bins w v count lt_le Hc Hw Hv Hinc)
      as (s & Hs & Hlen & _).
    exists s. split; assumption.
  - unfold fromSamples.
    rewrite (check_increasing_decides w count (N.to_nat count)) by lia.
    change (N.to_nat 0) with O. cbn [skipn]. rewrite Hinc. reflexivity.
Qed.

Lemma fromSamples_accepts_witness :
  (exists s,
     fromSamples (AF := binary32)
       (map Binary32.of_Z [400; 500; 700]%Z) (map Binary32.of_Z [2; 4; 9]%Z) 3
     = Done s /\ length s = 60%nat) /\
  fromSamples (AF := binary32)
    (map Binary32.of_Z [400; 700; 500]%Z) (map Binary32.of_Z [2; 4; 9]%Z) 3
  = Fault.
Proof.
  split.
  - apply (fromSamples_accepts (F := spec_float)
             (map Binary32.of_Z [400; 500; 700]%Z)
             (map Binary32.of_Z [2; 4; 9]%Z) 3);
      try reflexivity.
    vm_compute. split; congruence.
  - apply (fromSamples_accepts (F := spec_float)
             (map Binary32.of_Z [400; 700; 500]%Z)
             (map Binary32.of_Z [2; 4; 9]%Z) 3);
      try reflexivity.
    vm_compute. split; congruence.
Defined.

(** X4. With [count == 0] the assertion of [averageSamples] fails, and
    [fromSamples], whose own loop of assertions is then empty, fails at its
    first call of [averageSamples]: no bin is produced from an empty table.
    Any arithmetic, any arrays. *)
Theorem empty_table_refused {F : Type} {AF : Arith F}
    (w v : list F) (lBegin lEnd : F) :
  averageSamples w v 0 lBegin lEnd = Fault /\ fromSamples w v 0 = Fault.
Proof. split; reflexivity. Qed.

(** X5. A table of one entry is resampled to the constant spectrum: all 60
    bins hold [values[0]], whatever the wavelength array holds. Any
    arithmetic, bit for bit. *)
Theorem fromSamples_single {F : Type} {AF : Arith F}
    (w : list F) (x : F) (rest : list F) :
  exists s,
    fromSamples w (x :: rest) 1 = Done s /\
    forall i, (i < 60)%N -> get s i = Done x.
Proof.
  unfold fromSamples. change (check_increasing (N.to_nat 1) w 1 0) with
    (Done tt : exec unit). cbn [bind].
  destruct (fill_bins w (x :: rest) 1 (N.to_nat SampleCount)) with
    (i := 0%N) (result := make (f0 (F := F)))
    as (s & Hs & Hlen & _ & Hbins).
  - intros k _. exists x. reflexivity.
  - apply repeat_length.
  - unfold SampleCount. lia.
  - lia.
  - exists s. split; [exact Hs|].
    intros i Hi. destruct (Hbins i) as (r & Hr & Hread);
      [unfold SampleCount; lia|].
    change (averageSamples w (x :: rest) 1 (bin_begin i) (bin_end i))
      with (Done x) in Hr. injection Hr as <-.
    unfold get, SampleCount.
    destruct (N.ltb_spec i 60) as [_|?]; [exact Hread|lia].
Qed.

(** ** The statics *)

Section StaticsFacts.

Context {F : Type} {AF : Arith F}.
Variable cie : CIE.tables F.

Lemma keeps_refl (st : Statics.statics F) : keeps st st.
Proof. repeat split; auto. Qed.

Lemma keeps_trans (st1 st2 st3 : Statics.statics F) :
  keeps st1 st2 -> keeps st2 st3 -> keeps st1 st3.
Proof.
  intros (Hx & Hy & Hz & Hv) (Hx' & Hy' & Hz' & Hv').
  repeat split; auto.
Qed.

Lemma bindM_Done {A B : Type} (m : M F A) (k : A -> M F B)
    (st st' : Statics.statics F) (r : B) :
  bindM m k st = Done (r, st') ->
  exists a st1, m st = Done (a, st1) /\ k a st1 = Done (r, st').
Proof.
  unfold bindM. destruct (m st) as [[a st1]| |]; try discriminate.
  intros H. now exists a, st1.
Qed.

Ltac keeps_hit H := injection H as _ <-; apply keeps_refl.

Ltac keeps_miss H E :=
  match type of H with
  | bind ?m _ = _ => destruct m; try discriminate H
  end;
  cbn [bind] in H; injection H as _ <-;
  repeat split; cbn; auto; intros ? H'; rewrite E in H'; discriminate H'.

Lemma X_keeps st r st' : X cie st = Done (r, st') -> keeps st st'.
Proof.
  intros H. unfold X in H. destruct (Statics.x st) eqn:E; [keeps_hit H|keeps_miss H E].
Qed.

Lemma Y_keeps st r st' : Y cie st = Done (r, st') -> keeps st st'.
Proof.
  intros H. unfold Y in H. destruct (Statics.y st) eqn:E; [keeps_hit H|keeps_miss H E].
Qed.

Lemma Z_keeps st r st' : Z cie st = Done (r, st') -> keeps st st'.
Proof.
  intros H. unfold Z in H. destruct (Statics.z st) eqn:E; [keeps_hit H|keeps_miss H E].
Qed.

Lemma yIntegral_keeps st r st' :
  yIntegral cie st = Done (r, st') -> keeps st st'.
Proof.
  intros H. unfold yIntegral in H.
  destruct (Statics.value st) eqn:E; [keeps_hit H|keeps_miss H E].
Qed.

Lemma toXYZ_keeps samples st r st' :
  toXYZ cie samples st = Done (r, st') -> keeps st st'.
Proof.
  unfold toXYZ. intros H.
  apply bindM_Done in H as (sX & st1 & H1 & H).
  apply bindM_Done in H as (sY & st2 & H2 & H).
  apply bindM_Done in H as (sZ & st3 & H3 & H).
  apply bindM_Done in H as ([[x y] z] & st3' & Hacc & H).
  apply bindM_Done in H as (yint & st4 & H4 & H).
  unfold retM in H. injection H as _ <-.
  unfold liftM in Hacc.
  destruct (accumulate _ _ _ _ _ _ _); try discriminate Hacc.
  cbn [bind] in Hacc. injection Hacc as _ <-.
  apply keeps_trans with st1; [now apply X_keeps with sX|].
  apply keeps_trans with st2; [now apply Y_keeps with sY|].
  apply keeps_trans with st3; [now apply Z_keeps with sZ|].
  now apply yIntegral_keeps with yint.
Qed.

Lemma toRGB_keeps samples st r st' :
  toRGB cie samples st = Done (r, st') -> keeps st st'.
Proof.
  unfold toRGB. intros H.
  apply bindM_Done in H as (xyz & st1 & H1 & H).
  unfold retM in H. injection H as _ <-.
  now apply toXYZ_keeps with samples xyz.
Qed.

End StaticsFacts.

(** X6. No call changes a static that is already initialised: after [X],
    [Y], [Z], [yIntegral], [toXYZ] or [toRGB] every static that held a value
    before holds the same value. Any arithmetic. *)
Theorem statics_initialised_once {F : Type} {AF : Arith F}
    (cie : CIE.tables F) (samples : list F) (st : Statics.statics F) :
  (forall r st', X cie st = Done (r, st') -> keeps st st') /\
  (forall r st', Y cie st = Done (r, st') -> keeps st st') /\
  (forall r st', Z cie st = Done (r, st') -> keeps st st') /\
  (forall r st', yIntegral cie st = Done (r, st') -> keeps st st') /\
  (forall r st', toXYZ cie samples st = Done (r, st') -> keeps st st') /\
  (forall r st', toRGB cie samples st = Done (r, st') -> keeps st st').
Proof.
  split; [intros r st' H; exact (X_keeps cie st r st' H)|].
  split; [intros r st' H; exact (Y_keeps cie st r st' H)|].
  split; [intros r st' H; exact (Z_keeps cie st r st' H)|].
  split; [intros r st' H; exact (yIntegral_keeps cie st r st' H)|].
  split; intros r st' H.
  - exact (toXYZ_keeps cie samples st r st' H).
  - exact (toRGB_keeps cie samples st r st' H).
Qed.

Lemma statics_initialised_once_witness :
  exists sX st',
    X (F := Q) test_tables (Statics.with_value Statics.initial 5%Q)
    = Done (sX, st') /\
    Statics.value st' = Some 5%Q.
Proof.
  assert (increasingb (CIE.wavelengths (test_tables (F := Q))) = true)
    as Hinc by (vm_compute; reflexivity).
  destruct (singleton_built (test_tables (F := Q)) eq_refl Hinc
              (CIE.x test_tables) eq_refl) as (sX & HX & _).
  assert (X (F := Q) test_tables (Statics.with_value Statics.initial 5%Q)
          = Done (sX, Statics.with_x
                        (Statics.with_value Statics.initial 5%Q) sX)) as Hrun.
  { unfold X. cbn [Statics.x Statics.with_value Statics.initial].
    rewrite HX. reflexivity. }
  exists sX, (Statics.with_x (Statics.with_value Statics.initial 5%Q) sX).
  split; [exact Hrun|].
  destruct (statics_initialised_once test_tables (make 0%Q)
              (Statics.with_value Statics.initial 5%Q)) as (HkX & _).
  destruct (HkX _ _ Hrun) as (_ & _ & _ & Hv). apply Hv. reflexivity.
Defined.

Section Caching.

Context {F : Type} {AF : Arith F}.
Variable cie : CIE.tables F.

Lemma X_result (st : Statics.statics F) :
  consistent cie st ->
  match fromSamples (CIE.wavelengths cie) (CIE.x cie) CIE.sampleCount with
  | Done s => exists st', X cie st = Done (s, st') /\ consistent cie st'
  | Fault => X cie st = Fault
  | OutOfFuel => X cie st = OutOfFuel
  end.
Proof.
  intros Hst.
  destruct (fromSamples (CIE.wavelengths cie) (CIE.x cie) CIE.sampleCount)
    as [s| |] eqn:E.
  - now apply X_run.
  - unfold X. destruct (Statics.x st) as [s|] eqn:Ex.
    + destruct Hst as (Hx & _). rewrite (Hx s Ex) in E. discriminate E.
    + rewrite E. reflexivity.
  - unfold X. destruct (Statics.x st) as [s|] eqn:Ex.
    + destruct Hst as (Hx & _). rewrite (Hx s Ex) in E. discriminate E.
    + rewrite E. reflexivity.
Qed.

Lemma Y_result (st : Statics.statics F) :
  consistent cie st ->
  match fromSamples (CIE.wavelengths cie) (CIE.y cie) CIE.sampleCount with
  | Done s => exists st', Y cie st = Done (s, st') /\ consistent cie st'
  | Fault => Y cie st = Fault
  | OutOfFuel => Y cie st = OutOfFuel
  end.
Proof.
  intros Hst.
  destruct (fromSamples (CIE.wavelengths cie) (CIE.y cie) CIE.sampleCount)
    as [s| |] eqn:E.
  - now apply Y_run.
  - unfold Y. destruct (Statics.y st) as [s|] eqn:Ey.
    + destruct Hst as (_ & Hy & _). rewrite (Hy s Ey) in E. discriminate E.
    + rewrite E. reflexivity.
  - unfold Y. destruct (Statics.y st) as [s|] eqn:Ey.
    + destruct Hst as (_ & Hy & _). rewrite (Hy s Ey) in E. discriminate E.
    + rewrite E. reflexivity.
Qed.

Lemma Z_result (st : Statics.statics F) :
  consistent cie st ->
  match fromSamples (CIE.wavelengths cie) (CIE.z cie) CIE.sampleCount with
  | Done s => exists st', Z cie st = Done (s, st') /\ consistent cie st'
  | Fault => Z cie st = Fault
  | OutOfFuel => Z cie st = OutOfFuel
  end.
Proof.
  intros Hst.
  destruct (fromSamples (CIE.wavelengths cie) (CIE.z cie) CIE.sampleCount)
    as [s| |] eqn:E.
  - now apply Z_run.
  - unfold Z. destruct (Statics.z st) as [s|] eqn:Ez.
    + destruct Hst as (_ & _ & Hz & _). rewrite (Hz s Ez) in E.
      discriminate E.
    + rewrite E. reflexivity.
  - unfold Z. destruct (Statics.z st) as [s|] eqn:Ez.
    + destruct Hst as (_ & _ & Hz & _). rewrite (Hz s Ez) in E.
      discriminate E.
    + rewrite E. reflexivity.
Qed.

Lemma yIntegral_result (st : Statics.statics F) :
  consistent cie st ->
  match acquireIntegral cie with
  | Done v => exists st', yIntegral cie st = Done (v, st') /\ consistent cie st'
  | Fault => yIntegral cie st = Fault
  | OutOfFuel => yIntegral cie st = OutOfFuel
  end.
Proof.
  intros Hst. pose proof Hst as (Hx & Hy & Hz & Hv).
  destruct (acquireIntegral cie) as [v| |] eqn:E.
  - unfold yIntegral. destruct (Statics.value st) as [v'|] eqn:Ev.
    + specialize (Hv v' eq_refl). injection Hv as <-. exists st.
      split; [reflexivity|exact Hst].
    + rewrite E. cbn [bind]. eexists. split; [reflexivity|].
      repeat split; cbn; try assumption.
      intros v' Hv'. injection Hv' as <-. exact E.
  - unfold yIntegral. destruct (Statics.value st) as [v'|] eqn:Ev.
    + discriminate (Hv v' eq_refl).
    + rewrite E. reflexivity.
  - unfold yIntegral. destruct (Statics.value st) as [v'|] eqn:Ev.
    + discriminate (Hv v' eq_refl).
    + rewrite E. reflexivity.
Qed.

Lemma toXYZ_result (samples : list F) (st : Statics.statics F) :
  consistent cie st ->
  match toXYZ_value cie samples with
  | Done r =>
      exists st', toXYZ cie samples st = Done (r, st') /\ consistent cie st'
  | Fault => toXYZ cie samples st = Fault
  | OutOfFuel => toXYZ cie samples st = OutOfFuel
  end.
Proof.
  intros Hst. unfold toXYZ, toXYZ_value, bindM.
  pose proof (X_result st Hst) as HX.
  destruct (fromSamples (CIE.wavelengths cie) (CIE.x cie) CIE.sampleCount)
    as [sX| |]; cbn [bind]; [|rewrite HX; reflexivity..].
  destruct HX as (st1 & -> & Hst1).
  pose proof (Y_result st1 Hst1) as HY.
  destruct (fromSamples (CIE.wavelengths cie) (CIE.y cie) CIE.sampleCount)
    as [sY| |]; cbn [bind]; [|rewrite HY; reflexivity..].
  destruct HY as (st2 & -> & Hst2).
  pose proof (Z_result st2 Hst2) as HZ.
  destruct (fromSamples (CIE.wavelengths cie) (CIE.z cie) CIE.sampleCount)
    as [sZ| |]; cbn [bind]; [|rewrite HZ; reflexivity..].
  destruct HZ as (st3 & -> & Hst3).
  unfold liftM.
  destruct (accumulate (N.to_nat SampleCount) sX sY sZ samples 0 (f0, f0, f0))
    as [[[x y] z]| |]; cbn [bind]; [|reflexivity..].
  pose proof (yIntegral_result st3 Hst3) as HI.
  destruct (acquireIntegral cie) as [yint| |]; cbn [bind];
    [|rewrite HI; reflexivity..].
  destruct HI as (st4 & -> & Hst4).
  exists st4. split; [reflexivity|exact Hst4].
Qed.

Lemma toRGB_result (samples : list F) (st : Statics.statics F) :
  consistent cie st ->
  match toRGB_value cie samples with
  | Done r =>
      exists st', toRGB cie samples st = Done (r, st') /\ consistent cie st'
  | Fault => toRGB cie samples st = Fault
  | OutOfFuel => toRGB cie samples st = OutOfFuel
  end.
Proof.
  intros Hst. unfold toRGB, toRGB_value, bindM.
  pose proof (toXYZ_result samples st Hst) as H.
  destruct (toXYZ_value cie samples) as [xyz| |]; cbn [bind];
    [|rewrite H; reflexivity..].
  destruct H as (st' & -> & Hst'). exists st'. split; [reflexivity|exact Hst'].
Qed.

End Caching.

(** X7. The statics never change a value: from any state the statics can be
    in, [toXYZ] and [toRGB] return what the initialisers run afresh would
    give (the same value, or the same failure), and leave the statics in such
    a state again. Any arithmetic, bit for bit. *)
Theorem caching_is_invisible {F : Type} {AF : Arith F}
    (cie : CIE.tables F) (samples : list F) (st : Statics.statics F) :
  consistent cie st ->
  result (toXYZ cie samples st) = toXYZ_value cie samples /\
  result (toRGB cie samples st) = toRGB_value cie samples /\
  (forall r st', toXYZ cie samples st = Done (r, st') -> consistent cie st') /\
  (forall r st', toRGB cie samples st = Done (r, st') -> consistent cie st').
Proof.
  intros Hst.
  pose proof (toXYZ_result cie samples st Hst) as HX.
  pose proof (toRGB_result cie samples st Hst) as HR.
  unfold result.
  destruct (toXYZ_value cie samples) as [xyz| |];
  destruct (toRGB_value cie samples) as [rgb| |];
    try destruct HX as (st1 & HX & Hst1);
    try destruct HR as (st2 & HR & Hst2);
    rewrite HX, HR; cbn [bind fst];
    (split; [reflexivity|]); (split; [reflexivity|]);
    split; intros r st' H; try discriminate H; congruence.
Qed.

Lemma caching_is_invisible_witness :
  result (toXYZ (AF := binary32) test_tables (make (Binary32.of_Z 1))
            Statics.initial)
  = toXYZ_value test_tables (make (Binary32.of_Z 1)) /\
  result (toRGB (AF := binary32) test_tables (make (Binary32.of_Z 1))
            Statics.initial)
  = toRGB_value test_tables (make (Binary32.of_Z 1)) /\
  (forall r st',
     toXYZ (AF := binary32) test_tables (make (Binary32.of_Z 1))
       Statics.initial = Done (r, st') ->
     consistent test_tables st') /\
  (forall r st',
     toRGB (AF := binary32) test_tables (make (Binary32.of_Z 1))
       Statics.initial = Done (r, st') ->
     consistent test_tables st').
Proof.
  apply caching_is_invisible. apply consistent_initial.
Defined.

(** ** Bins outside the table *)

(** X8. Bins that lie wholly outside the table are clamped: a bin whose
    upper bound, as [fromSamples] computes it in binary32, is at or below the
    first wavelength holds [values[0]], and a bin whose lower bound is at or
    above the last wavelength holds [values[count-1]], bit for bit as they
    stand in the table.  Binary32. *)
Theorem fromSamples_clamps_bins (w v : list spec_float) (count : N) :
  (0 < count < U32.modulus)%N ->
  length w = N.to_nat count -> length v = N.to_nat count ->
  increasingb w = true ->
  exists s,
    fromSamples w v count = Done s /\
    forall i, (i < 60)%N ->
      ((bin_end i <=? nth 0 w f0)%fl = true ->
       get s i = Done (nth 0 v f0)) /\
      ((nth (N.to_nat count - 1) w f0 <=? bin_begin i)%fl = true ->
       get s i = Done (nth (N.to_nat count - 1) v f0)).
Proof.
  intros Hc Hw Hv Hinc.
  destruct (fromSamples_bins w v count lt_le Hc Hw Hv Hinc)
    as (s & Hs & _ & Hbins).
  exists s. split; [exact Hs|].
  intros i Hi. destruct (Hbins i Hi) as (r & Hr & Hread).
  destruct (bins_binary32 i Hi) as (Hlt & _ & _).
  rewrite get_read, Hread by assumption. split; intros H.
  - rewrite (averageSamples_left w v count Hc Hw Hv _ _ H) in Hr.
    congruence.
  - rewrite (averageSamples_right w v count Hc Hw Hv Hinc _ _ Hlt H) in Hr.
    congruence.
Qed.

Lemma fromSamples_clamps_bins_witness :
  let w := map Binary32.of_Z [425; 600]%Z in
  let v := map Binary32.of_Z [3; 8]%Z in
  exists s,
    fromSamples w v 2 = Done s /\
    forall i, (i < 60)%N ->
      ((bin_end i <=? nth 0 w f0)%fl = true ->
       get s i = Done (nth 0 v f0)) /\
      ((nth (N.to_nat 2 - 1) w f0 <=? bin_begin i)%fl = true ->
       get s i = Done (nth (N.to_nat 2 - 1) v f0)).
Proof.
  cbv zeta. apply fromSamples_clamps_bins; try reflexivity.
  vm_compute. split; congruence.
Defined.

(** ** averageSamples, case by case *)

(** X21. What [averageSamples] returns on any table of [count >= 1]
    strictly increasing wavelengths and any interval bounds: [values[0]]
    when [count == 1] or the interval ends at or before the first
    wavelength; otherwise [values[count-1]] when the interval begins at or
    after the last wavelength; otherwise the trapezoid average over the
    segments that meet the interval.  The tests are those of the code, in
    its arithmetic.  Every arithmetic with the laws of binary32, binary32
    included. *)
Theorem averageSamples_specified {F : Type} {AF : Arith F}
    {OL : OrderLaws F} {FL : FloatLaws F}
    (w v : list F) (count : N) (lBegin lEnd : F) :
  (0 < count < U32.modulus)%N ->
  length w = N.to_nat count -> length v = N.to_nat count ->
  increasingb w = true ->
  averageSamples w v count lBegin lEnd
  = Done (if (count =? 1)%N then nth 0 v f0
          else if (lEnd <=? nth 0 w f0)%fl then nth 0 v f0
          else if (lBegin >=? nth (N.to_nat count - 1) w f0)%fl
               then nth (N.to_nat count - 1) v f0
          else trapezoid_average w v lBegin lEnd).
Proof.
  intros Hc Hw Hv Hinc.
  destruct (N.eqb_spec count 1) as [E1|E1].
  { unfold averageSamples.
    destruct (N.ltb_spec 0 count) as [_|?]; [|lia]. cbn [assert bind].
    rewrite (proj2 (N.eqb_eq count 1) E1).
    rewrite (read_nth v 0 f0) by lia. reflexivity. }
  destruct (lEnd <=? nth 0 w f0)%fl eqn:T0.
  { now apply averageSamples_left. }
  destruct (lBegin >=? nth (N.to_nat count - 1) w f0)%fl eqn:Tl.
  - unfold averageSamples.
    destruct (N.ltb_spec 0 count) as [_|?]; [|lia]. cbn [assert bind].
    rewrite (proj2 (N.eqb_neq count 1) E1).
    rewrite U32_sub_small by lia.
    rewrite (read_nth w 0 f0), (read_nth w (count - 1) f0),
      (read_nth v (count - 1) f0) by lia.
    cbn [bind]. change (N.to_nat 0) with O.
    replace (N.to_nat (count - 1)) with (N.to_nat count - 1)%nat by lia.
    rewrite T0, Tl. reflexivity.
  - apply averageSamples_trapezoid_average; try assumption. lia.
Qed.

Lemma averageSamples_specified_witness :
  let w := map Binary32.of_Z [400; 500; 700]%Z in
  let v := map Binary32.of_Z [2; 4; 9]%Z in
  averageSamples (AF := binary32) w v 3
    (Binary32.of_Z 450) (Binary32.of_Z 650)
  = Done (if (3 =? 1)%N then nth 0 v f0
          else if (Binary32.of_Z 650 <=? nth 0 w f0)%fl then nth 0 v f0
          else if (Binary32.of_Z 450 >=? nth (N.to_nat 3 - 1) w f0)%fl
               then nth (N.to_nat 3 - 1) v f0
          else trapezoid_average w v (Binary32.of_Z 450)
                 (Binary32.of_Z 650)).
Proof.
  cbv zeta.
  apply (averageSamples_specified (F := spec_float)); try reflexivity.
  vm_compute. split; congruence.
Defined.

(** ** The bins *)

(** X10. On the machine (binary32) the bounds that [fromSamples] passes to
    [averageSamples] meet its contract: for each of the 60 bins the lower
    bound is strictly below the upper bound; the upper bound of a bin is, bit
    for bit, the lower bound of the next; the first bound is the float 400
    and the last the float 700. *)
Theorem bins_tile_binary32 (i : N) :
  (i < 60)%N ->
  (bin_begin (AF := binary32) i <? bin_end i)%fl = true /\
  bin_end (AF := binary32) i = bin_begin (i + 1) /\
  bin_begin (AF := binary32) 0 = Binary32.of_Z 400 /\
  bin_end (AF := binary32) 59 = Binary32.of_Z 700.
Proof.
  intros Hi. split; [|split; [|split]].
  - revert i Hi. apply below_60. intros k Hk.
    assert (forallb
              (fun k => (bin_begin (AF := binary32) (N.of_nat k)
                         <? bin_end (N.of_nat k))%fl) (seq 0 60) = true)
      as Hall by (vm_compute; reflexivity).
    rewrite forallb_forall in Hall. exact (Hall k Hk).
  - unfold bin_end, bin_begin.
    rewrite U32_add_small by (unfold U32.modulus; lia). reflexivity.
  - vm_compute. reflexivity.
  - vm_compute. reflexivity.
Qed.

Lemma bins_tile_binary32_witness :
  (bin_begin (AF := binary32) 17 <? bin_end 17)%fl = true /\
  bin_end (AF := binary32) 17 = bin_begin (17 + 1) /\
  bin_begin (AF := binary32) 0 = Binary32.of_Z 400 /\
  bin_end (AF := binary32) 59 = Binary32.of_Z 700.
Proof. apply bins_tile_binary32. reflexivity. Defined.

(** ** Memory safety *)

(** X18. [averageSamples] stays inside its arrays on every input with
    [count >= 1]: whatever the interval bounds (inverted, infinite, NaN) and
    whatever the order of the wavelengths, it returns a value without reading
    outside [[0, count)]. Any arithmetic in which [a < b] implies [a <= b];
    binary32 is one. *)
Theorem averageSamples_memory_safe {F : Type} {AF : Arith F}
    {OL : OrderLaws F} (w v : list F) (count : N) (lBegin lEnd : F) :
  (0 < count < U32.modulus)%N ->
  length w = N.to_nat count -> length v = N.to_nat count ->
  exists r, averageSamples w v count lBegin lEnd = Done r.
Proof.
  apply averageSamples_total. exact lt_le.
Qed.

Lemma averageSamples_memory_safe_witness :
  exists r,
    averageSamples (AF := binary32)
      [Binary32.of_Z 700; S754_nan; Binary32.of_Z 400]
      [Binary32.of_Z 1; Binary32.of_Z 2; Binary32.of_Z 3] 3
      S754_nan (S754_infinity true) = Done r.
Proof.
  apply (averageSamples_memory_safe (F := spec_float)); try reflexivity.
  vm_compute. split; congruence.
Defined.
